(** * The block-assembly miner and the eth wire protocol of the client

    A shallow embedding of [packages/client/lib/miner/miner.ts] (class
    [Miner]) and of the eth protocol message registry (class [EthProtocol]).

    The client is single threaded: an [async] method runs without
    interruption up to its next [await] and is resumed later by the runtime.
    Each method is therefore embedded as the list of its synchronous
    segments, written in a state monad over the objects the miner touches
    (its own fields, the listeners of [config.events], the pending
    timeouts of the runtime, and the calls that are suspended at an
    [await]).  What the collaborators answer (the VM, the transaction pool,
    the blockchain) arrives as an input of the step function, and what the
    miner asks of them is recorded as an effect.

    Numbers of the class [BN] are integers of [Z]; buffers are lists of
    bytes; a function object is its identity and the code it runs. *)

From Stdlib Require Import String ZArith List Bool Lia.
From Stdlib.Strings Require Import Byte.
Import ListNotations.

#[local] Open Scope Z_scope.

Module Miner.

(** ** Collaborators *)

(** [ConsensusType] of [@ethereumjs/common]. *)
Inductive ConsensusType := ProofOfStake | ProofOfWork | ProofOfAuthority.

Definition isProofOfAuthority (c : ConsensusType) : bool :=
  match c with ProofOfAuthority => true | _ => false end.

(** The part of [config.chainCommon] the miner reads. *)
Record Common := {
  consensusType : ConsensusType;
  consensusPeriod : option Z;       (* consensusConfig().period *)
  londonHardforkBlock : option Z;   (* hardforkBlockBN('london'), null when unset *)
  initialBaseFee : Z                (* paramByEIP('gasConfig', 'initialBaseFee', 1559) *)
}.

(** The part of [config] the miner decides on.  The signer's account
    ([config.accounts[0]]) is passed on to the blockchain and to the block
    builder unread. *)
Record Config := {
  mine : bool;
  chainCommon : Common
}.

(** A block header, with the value its method [calcNextBaseFee()] returns. *)
Record BlockHeader := {
  hdr_number : Z;
  hdr_gasLimit : Z;
  hdr_timestamp : Z;
  hdr_stateRoot : Z;
  calcNextBaseFee : Z
}.

Record Tx := { tx_hash : Z }.

Record Block := {
  blk_header : BlockHeader;
  transactions : list Tx
}.

(** What the miner reads synchronously from its surroundings. *)
Record World := {
  latest : BlockHeader;                (* chain.headers.latest *)
  latestBlock : Block;                 (* chain.blocks.latest *)
  isActivatedEIP1559 : bool;           (* chainCommon.isActivatedEIP(1559) *)
  cliqueCheckRecentlySigned : Z -> bool; (* by the number of the header *)
  now : Z                              (* Date.now() *)
}.

(** The header data handed to [vm.buildBlock]. *)
Record HeaderData := {
  hd_number : Z;
  hd_difficulty : option Z;
  hd_gasLimit : Z;
  hd_baseFeePerGas : option Z
}.

(** ** Function objects, listeners and timeouts *)

(** The code a function object runs.  [HSetInterrupt a] is the closure
    [setInterrupt] of the call [a] of [assembleBlock]. *)
Inductive Handler :=
| HChainUpdated
| HAssembleBlock
| HSetInterrupt (a : nat).

(** A function object: [f.bind(this)] makes a new one at every evaluation,
    and the event emitter compares listeners by identity. *)
Record Fn := { fn_id : nat; fn_body : Handler }.

Record Timer := { timer_id : nat; callback : Fn; delay : Z }.

(** ** Suspended calls *)

(** The [await] at which a call of [assembleBlock] is suspended. *)
Inductive Pc :=
| AwaitStateRoot        (* generateCanonicalGenesis() or setStateRoot() *)
| AwaitSignerInTurn     (* vmCopy.blockchain.cliqueSignerInTurn() *)
| AwaitBuildBlock       (* vmCopy.buildBlock() *)
| AwaitTxs              (* txPool.txsByPriceAndNonce() *)
| AwaitAddTransaction   (* blockBuilder.addTransaction(txs[index]) *)
| AwaitBuild            (* blockBuilder.build() *)
| AwaitHandleNewBlock   (* synchronizer.handleNewBlock(block) *)
| Returned.

(** The local variables of a call of [assembleBlock]. *)
Record Frame := {
  pc : Pc;
  interrupt : bool;
  parentBlockHeader : BlockHeader;
  number : Z;
  gasLimit : Z;
  difficulty : option Z;
  baseFeePerGas : option Z;
  txs : list Tx;
  index : nat;
  blockFull : bool;
  gasUsed : Z;            (* blockBuilder.gasUsed *)
  block : option Block
}.

(** A call of [queueNextAssembly] suspended at [await cliqueSignerInTurn]. *)
Record QFrame := { q_timeout : Z; q_waiting : bool }.

(** ** Effects on the collaborators *)

Inductive LogMsg :=
| MinerStarted (period : Z)
| MinerStopped
| ChainUpdatedQueuing (number timeout : Z)
| TooRecentlySigned
| AssemblingFrom (n : nat) (baseFee : option Z)
| AssembledBlockFull (gasLeft : Z)
| SkippingTx (hash : Z) (error : string)
| SealedBlock (n : nat).

Inductive Effect :=
| Logger (m : LogMsg)
| CallCliqueSignerInTurn
| CallVmCopy (a : nat)
| CallGenerateCanonicalGenesis (a : nat)
| CallSetStateRoot (a : nat) (root : Z)
| CallBuildBlock (a : nat) (parentBlock : Block) (headerData : HeaderData)
| CallTxsByPriceAndNonce (a : nat) (baseFee : option Z)
| CallAddTransaction (a : nat) (tx : Tx)
| CallBuild (a : nat)
| CallHandleNewBlock (a : nat) (b : Block)
| CallRemoveNewBlockTxs (a : nat) (b : Block).

(** ** The state *)

Record State := {
  running : bool;
  assembling : bool;
  nextAssemblyTimeoutId : option nat;   (* _nextAssemblyTimeoutId *)
  listeners : list Fn;                  (* of Event.CHAIN_UPDATED, oldest first *)
  functions : nat;                      (* function objects made so far *)
  timers : list Timer;                  (* the pending timeouts *)
  timeouts : nat;                       (* Timeout objects made so far *)
  queueing : list QFrame;               (* the calls of queueNextAssembly *)
  frames : list Frame;                  (* the calls of assembleBlock *)
  world : World;
  effects : list Effect                 (* newest first *)
}.

Definition set_running (x : bool) (s : State) : State :=
  {| running := x; assembling := assembling s;
     nextAssemblyTimeoutId := nextAssemblyTimeoutId s;
     listeners := listeners s; functions := functions s; timers := timers s;
     timeouts := timeouts s; queueing := queueing s; frames := frames s;
     world := world s; effects := effects s |}.

Definition set_assembling (x : bool) (s : State) : State :=
  {| running := running s; assembling := x;
     nextAssemblyTimeoutId := nextAssemblyTimeoutId s;
     listeners := listeners s; functions := functions s; timers := timers s;
     timeouts := timeouts s; queueing := queueing s; frames := frames s;
     world := world s; effects := effects s |}.

Definition set_nextAssemblyTimeoutId (x : option nat) (s : State) : State :=
  {| running := running s; assembling := assembling s;
     nextAssemblyTimeoutId := x;
     listeners := listeners s; functions := functions s; timers := timers s;
     timeouts := timeouts s; queueing := queueing s; frames := frames s;
     world := world s; effects := effects s |}.

Definition set_listeners (x : list Fn) (s : State) : State :=
  {| running := running s; assembling := assembling s;
     nextAssemblyTimeoutId := nextAssemblyTimeoutId s;
     listeners := x; functions := functions s; timers := timers s;
     timeouts := timeouts s; queueing := queueing s; frames := frames s;
     world := world s; effects := effects s |}.

Definition set_functions (x : nat) (s : State) : State :=
  {| running := running s; assembling := assembling s;
     nextAssemblyTimeoutId := nextAssemblyTimeoutId s;
     listeners := listeners s; functions := x; timers := timers s;
     timeouts := timeouts s; queueing := queueing s; frames := frames s;
     world := world s; effects := effects s |}.

Definition set_timers (x : list Timer) (s : State) : State :=
  {| running := running s; assembling := assembling s;
     nextAssemblyTimeoutId := nextAssemblyTimeoutId s;
     listeners := listeners s; functions := functions s; timers := x;
     timeouts := timeouts s; queueing := queueing s; frames := frames s;
     world := world s; effects := effects s |}.

Definition set_timeouts (x : nat) (s : State) : State :=
  {| running := running s; assembling := assembling s;
     nextAssemblyTimeoutId := nextAssemblyTimeoutId s;
     listeners := listeners s; functions := functions s; timers := timers s;
     timeouts := x; queueing := queueing s; frames := frames s;
     world := world s; effects := effects s |}.

Definition set_queueing (x : list QFrame) (s : State) : State :=
  {| running := running s; assembling := assembling s;
     nextAssemblyTimeoutId := nextAssemblyTimeoutId s;
     listeners := listeners s; functions := functions s; timers := timers s;
     timeouts := timeouts s; queueing := x; frames := frames s;
     world := world s; effects := effects s |}.

Definition set_frames (x : list Frame) (s : State) : State :=
  {| running := running s; assembling := assembling s;
     nextAssemblyTimeoutId := nextAssemblyTimeoutId s;
     listeners := listeners s; functions := functions s; timers := timers s;
     timeouts := timeouts s; queueing := queueing s; frames := x;
     world := world s; effects := effects s |}.

Definition set_world (x : World) (s : State) : State :=
  {| running := running s; assembling := assembling s;
     nextAssemblyTimeoutId := nextAssemblyTimeoutId s;
     listeners := listeners s; functions := functions s; timers := timers s;
     timeouts := timeouts s; queueing := queueing s; frames := frames s;
     world := x; effects := effects s |}.

Definition set_effects (x : list Effect) (s : State) : State :=
  {| running := running s; assembling := assembling s;
     nextAssemblyTimeoutId := nextAssemblyTimeoutId s;
     listeners := listeners s; functions := functions s; timers := timers s;
     timeouts := timeouts s; queueing := queueing s; frames := frames s;
     world := world s; effects := x |}.

(** Updates of the local variables of a frame. *)

Definition set_pc (x : Pc) (f : Frame) : Frame :=
  {| pc := x; interrupt := interrupt f;
     parentBlockHeader := parentBlockHeader f; number := number f;
     gasLimit := gasLimit f; difficulty := difficulty f;
     baseFeePerGas := baseFeePerGas f; txs := txs f; index := index f;
     blockFull := blockFull f; gasUsed := gasUsed f; block := block f |}.

Definition set_interrupt (x : bool) (f : Frame) : Frame :=
  {| pc := pc f; interrupt := x;
     parentBlockHeader := parentBlockHeader f; number := number f;
     gasLimit := gasLimit f; difficulty := difficulty f;
     baseFeePerGas := baseFeePerGas f; txs := txs f; index := index f;
     blockFull := blockFull f; gasUsed := gasUsed f; block := block f |}.

Definition set_gasLimit (x : Z) (f : Frame) : Frame :=
  {| pc := pc f; interrupt := interrupt f;
     parentBlockHeader := parentBlockHeader f; number := number f;
     gasLimit := x; difficulty := difficulty f;
     baseFeePerGas := baseFeePerGas f; txs := txs f; index := index f;
     blockFull := blockFull f; gasUsed := gasUsed f; block := block f |}.

Definition set_difficulty (x : option Z) (f : Frame) : Frame :=
  {| pc := pc f; interrupt := interrupt f;
     parentBlockHeader := parentBlockHeader f; number := number f;
     gasLimit := gasLimit f; difficulty := x;
     baseFeePerGas := baseFeePerGas f; txs := txs f; index := index f;
     blockFull := blockFull f; gasUsed := gasUsed f; block := block f |}.

Definition set_baseFeePerGas (x : option Z) (f : Frame) : Frame :=
  {| pc := pc f; interrupt := interrupt f;
     parentBlockHeader := parentBlockHeader f; number := number f;
     gasLimit := gasLimit f; difficulty := difficulty f;
     baseFeePerGas := x; txs := txs f; index := index f;
     blockFull := blockFull f; gasUsed := gasUsed f; block := block f |}.

Definition set_txs (x : list Tx) (f : Frame) : Frame :=
  {| pc := pc f; interrupt := interrupt f;
     parentBlockHeader := parentBlockHeader f; number := number f;
     gasLimit := gasLimit f; difficulty := difficulty f;
     baseFeePerGas := baseFeePerGas f; txs := x; index := index f;
     blockFull := blockFull f; gasUsed := gasUsed f; block := block f |}.

Definition set_index (x : nat) (f : Frame) : Frame :=
  {| pc := pc f; interrupt := interrupt f;
     parentBlockHeader := parentBlockHeader f; number := number f;
     gasLimit := gasLimit f; difficulty := difficulty f;
     baseFeePerGas := baseFeePerGas f; txs := txs f; index := x;
     blockFull := blockFull f; gasUsed := gasUsed f; block := block f |}.

Definition set_blockFull (x : bool) (f : Frame) : Frame :=
  {| pc := pc f; interrupt := interrupt f;
     parentBlockHeader := parentBlockHeader f; number := number f;
     gasLimit := gasLimit f; difficulty := difficulty f;
     baseFeePerGas := baseFeePerGas f; txs := txs f; index := index f;
     blockFull := x; gasUsed := gasUsed f; block := block f |}.

Definition set_gasUsed (x : Z) (f : Frame) : Frame :=
  {| pc := pc f; interrupt := interrupt f;
     parentBlockHeader := parentBlockHeader f; number := number f;
     gasLimit := gasLimit f; difficulty := difficulty f;
     baseFeePerGas := baseFeePerGas f; txs := txs f; index := index f;
     blockFull := blockFull f; gasUsed := x; block := block f |}.

Definition set_block (x : option Block) (f : Frame) : Frame :=
  {| pc := pc f; interrupt := interrupt f;
     parentBlockHeader := parentBlockHeader f; number := number f;
     gasLimit := gasLimit f; difficulty := difficulty f;
     baseFeePerGas := baseFeePerGas f; txs := txs f; index := index f;
     blockFull := blockFull f; gasUsed := gasUsed f; block := x |}.

(** Replacing the element at a position of a list (nothing out of range). *)
Fixpoint update {A : Type} (n : nat) (x : A) (l : list A) : list A :=
  match l, n with
  | [], _ => []
  | _ :: t, O => x :: t
  | h :: t, S k => h :: update k x t
  end.

(** ** The monad of the synchronous segments *)

Definition M (A : Type) : Type := State -> A * State.

Definition ret {A : Type} (x : A) : M A := fun s => (x, s).

Definition bind {A B : Type} (m : M A) (k : A -> M B) : M B :=
  fun s => let (x, s') := m s in k x s'.

Definition get : M State := fun s => (s, s).

Definition modify (f : State -> State) : M unit := fun s => (tt, f s).

Definition exec {A : Type} (m : M A) (s : State) : State := snd (m s).

Declare Scope miner_scope.
Delimit Scope miner_scope with miner.
Notation "x <- m ;; k" := (bind m (fun x => k))
  (at level 61, m at next level, right associativity) : miner_scope.
Notation "m ;; k" := (bind m (fun _ => k))
  (at level 61, right associativity) : miner_scope.
#[local] Open Scope miner_scope.

Definition effect (e : Effect) : M unit :=
  modify (fun s => set_effects (e :: effects s) s).

(** [f.bind(this)]: a function object nobody has seen before. *)
Definition bindThis (h : Handler) : M Fn :=
  fun s => ({| fn_id := functions s; fn_body := h |},
            set_functions (S (functions s)) s).

(** [events.on(Event.CHAIN_UPDATED, f)]. *)
Definition on (f : Fn) : M unit :=
  modify (fun s => set_listeners (listeners s ++ [f]) s).

(** Node removes the most recently added listener that is the very function
    object it is given, and nothing when there is none. *)
Fixpoint remove_first (i : nat) (l : list Fn) : list Fn :=
  match l with
  | [] => []
  | g :: t => if Nat.eqb (fn_id g) i then t else g :: remove_first i t
  end.

Definition remove_last (i : nat) (l : list Fn) : list Fn :=
  rev (remove_first i (rev l)).

(** [events.removeListener(Event.CHAIN_UPDATED, f)]. *)
Definition removeListener (f : Fn) : M unit :=
  modify (fun s => set_listeners (remove_last (fn_id f) (listeners s)) s).

(** [setTimeout(cb, delay)]. *)
Definition setTimeout (cb : Fn) (d : Z) : M nat :=
  fun s => (timeouts s,
            set_timeouts (S (timeouts s))
              (set_timers
                 (timers s ++ [{| timer_id := timeouts s; callback := cb; delay := d |}]) s)).

(** [clearTimeout(t)]: nothing happens when [t] is no longer pending. *)
Definition clearTimeout (t : nat) : M unit :=
  modify (fun s =>
    set_timers (filter (fun x => negb (Nat.eqb (timer_id x) t)) (timers s)) s).

(** [BN.prototype.toNumber]: it throws beyond 53 bits. *)
Definition toNumber (z : Z) : option Z :=
  if Z.abs z <? 2 ^ 53 then Some z else None.

(** Whether the template of line 201 can print the base fee: an absent one
    is left out, a present one goes through [toNumber]. *)
Definition printable (baseFee : option Z) : bool :=
  match baseFee with
  | Some z => match toNumber z with Some _ => true | None => false end
  | None => true
  end.

Definition dummyTx : Tx := {| tx_hash := 0 |}.

(** The message of the error [addTransaction] throws when the gas limit of
    the transaction exceeds what is left in the block. *)
Definition gasLimitExceeded : string :=
  "tx has a higher gas limit than the remaining gas in the block".

(** What an awaited promise settles with. *)
Inductive Response :=
| Resolved
| InTurn (inTurn : bool)
| BlockBuilder (gasUsed : Z)          (* the builder, with its gasUsed *)
| Txs (l : list Tx)
| Added (gasUsed : Z)                 (* addTransaction resolved *)
| Failed (message : string) (gasUsed : Z)  (* addTransaction threw *)
| Built (b : Block)
| Rejected.

(** What happens next: a call from outside, an event, a timeout that
    expires, or a suspended call that is resumed. *)
Inductive Input :=
| Environment (w : World)
| Start
| Stop
| AssembleBlock
| QueueNextAssembly (timeout : option Z)
| EmitChainUpdated
| Fire (t : nat)
| SignerInTurn (q : nat) (inTurn : bool) (jitter : Z)
| SignerUnknown (q : nat)
| Resume (a : nat) (r : Response).

(** ** The class [Miner] *)

Section Methods.

Variable config : Config.

Definition DEFAULT_PERIOD : Z := 15.

(** [this.period], in milliseconds. *)
Definition period : Z :=
  match consensusPeriod (chainCommon config) with
  | Some p => p
  | None => DEFAULT_PERIOD
  end * 1000.

Definition isPoA : bool :=
  isProofOfAuthority (consensusType (chainCommon config)).

(** The state the constructor leaves. *)
Definition init (w : World) : State :=
  {| running := false; assembling := false; nextAssemblyTimeoutId := None;
     listeners := []; functions := 0; timers := []; timeouts := 0;
     queueing := []; frames := []; world := w; effects := [] |}.

(** Line 73 of [queueNextAssembly]. *)
Definition schedule (timeout : Z) : M unit :=
  cb <- bindThis HAssembleBlock ;;
  t <- setTimeout cb timeout ;;
  modify (set_nextAssemblyTimeoutId (Some t)).

(** [queueNextAssembly], up to its [await]. *)
Definition queueNextAssembly (timeout : option Z) : M unit :=
  s <- get ;;
  match nextAssemblyTimeoutId s with
  | Some t => clearTimeout t
  | None => ret tt
  end ;;
  let timeout := match timeout with Some t => t | None => period end in
  if isPoA then
    effect CallCliqueSignerInTurn ;;
    modify (fun s =>
      set_queueing (queueing s ++ [{| q_timeout := timeout; q_waiting := true |}]) s)
  else schedule timeout.

(** [queueNextAssembly], from its [await] on.  [jitter] stands for
    [Math.random() * signerCount * 500]. *)
Definition queueNextAssembly_resume (q : nat) (inTurn : bool) (jitter : Z) : M unit :=
  s <- get ;;
  match nth_error (queueing s) q with
  | Some {| q_timeout := timeout; q_waiting := true |} =>
      modify (fun s =>
        set_queueing
          (update q {| q_timeout := timeout; q_waiting := false |} (queueing s)) s) ;;
      schedule (if inTurn then timeout else timeout + jitter)
  | _ => ret tt
  end.

(** [queueNextAssembly] when [cliqueSignerInTurn] throws: the call ends
    there and sets no timeout. *)
Definition queueNextAssembly_reject (q : nat) : M unit :=
  s <- get ;;
  match nth_error (queueing s) q with
  | Some {| q_timeout := timeout; q_waiting := true |} =>
      modify (fun s =>
        set_queueing
          (update q {| q_timeout := timeout; q_waiting := false |} (queueing s)) s)
  | _ => ret tt
  end.

(** [chainUpdated]: the call ends where [addn] or [toNumber] throws, and
    [addn] of bn.js takes a number below 2^26 only. *)
Definition chainUpdated : M unit :=
  s <- get ;;
  let latestBlockHeader := latest (world s) in
  if Z.abs period <? 2 ^ 26 then
    let target := hdr_timestamp latestBlockHeader * 1000 + period - now (world s) in
    match toNumber (Z.max 0 target), toNumber (hdr_number latestBlockHeader) with
    | Some timeout, Some n =>
        effect (Logger (ChainUpdatedQueuing n timeout)) ;;
        queueNextAssembly (Some timeout)
    | _, _ => ret tt
    end
  else ret tt.

Definition start : M bool :=
  s <- get ;;
  if negb (mine config) || running s then ret false
  else
    modify (set_running true) ;;
    f <- bindThis HChainUpdated ;;
    on f ;;
    queueNextAssembly None ;;
    effect (Logger (MinerStarted period)) ;;
    ret true.

Definition stop : M bool :=
  s <- get ;;
  if negb (running s) then ret false
  else
    f <- bindThis HChainUpdated ;;
    removeListener f ;;
    match nextAssemblyTimeoutId s with
    | Some t => clearTimeout t
    | None => ret tt
    end ;;
    modify (set_running false) ;;
    effect (Logger MinerStopped) ;;
    ret true.

Definition newFrame (f : Frame) : M nat :=
  fun s => (length (frames s), set_frames (frames s ++ [f]) s).

Definition putFrame (a : nat) (f : Frame) : M unit :=
  modify (fun s => set_frames (update a f (frames s)) s).

(** The closure [setInterrupt] of the call [a] of [assembleBlock]. *)
Definition setInterrupt (a : nat) : M unit :=
  s <- get ;;
  match nth_error (frames s) a with
  | Some f => putFrame a (set_interrupt true f)
  | None => ret tt
  end ;;
  modify (set_assembling false).

(** [assembleBlock], lines 109 to 158. *)
Definition assembleBlock : M unit :=
  s <- get ;;
  if assembling s then ret tt
  else
    modify (set_assembling true) ;;
    let parent := latest (world s) in
    let num := hdr_number parent + 1 in
    a <- newFrame
           {| pc := AwaitStateRoot; interrupt := false;
              parentBlockHeader := parent; number := num;
              gasLimit := hdr_gasLimit parent; difficulty := None;
              baseFeePerGas := None; txs := []; index := 0;
              blockFull := false; gasUsed := 0; block := None |} ;;
    f <- bindThis (HSetInterrupt a) ;;
    on f ;;
    if isPoA && cliqueCheckRecentlySigned (world s) num then
      effect (Logger TooRecentlySigned) ;;
      modify (set_assembling false) ;;
      s' <- get ;;
      match nth_error (frames s') a with
      | Some fr => putFrame a (set_pc Returned fr)
      | None => ret tt
      end
    else
      effect (CallVmCopy a) ;;
      if hdr_number parent =? 0 then effect (CallGenerateCanonicalGenesis a)
      else effect (CallSetStateRoot a (hdr_stateRoot parent)).

(** Lines 167 to 179: the base fee and the gas limit of the new header. *)
Definition eip1559 (w : World) (f : Frame) : option Z * Z :=
  let isInitialEIP1559Block :=
    match londonHardforkBlock (chainCommon config) with
    | Some b => number f =? b
    | None => false
    end in
  if isInitialEIP1559Block then
    (Some (initialBaseFee (chainCommon config)), gasLimit f * 2)
  else if isActivatedEIP1559 w then
    (Some (calcNextBaseFee (parentBlockHeader f)), gasLimit f)
  else (None, gasLimit f).

Definition headerData (w : World) (f : Frame) : HeaderData :=
  {| hd_number := number f; hd_difficulty := difficulty f;
     hd_gasLimit := snd (eip1559 w f); hd_baseFeePerGas := fst (eip1559 w f) |}.

(** Lines 167 to 193. *)
Definition openBlockBuilder (a : nat) (f : Frame) : M unit :=
  s <- get ;;
  effect (CallBuildBlock a (latestBlock (world s)) (headerData (world s) f)) ;;
  putFrame a
    (set_pc AwaitBuildBlock
       (set_gasLimit (snd (eip1559 (world s) f))
          (set_baseFeePerGas (fst (eip1559 (world s) f)) f))).

(** The test of the [while] loop (line 206) with what follows a failed
    test (lines 230 to 232). *)
Definition iterate (a : nat) (f : Frame) : M unit :=
  if (index f <? length (txs f))%nat && negb (blockFull f) && negb (interrupt f)
  then
    effect (CallAddTransaction a (nth (index f) (txs f) dummyTx)) ;;
    putFrame a (set_pc AwaitAddTransaction f)
  else if interrupt f then putFrame a (set_pc Returned f)
  else
    effect (CallBuild a) ;;
    putFrame a (set_pc AwaitBuild f).

(** The [catch] block of the loop (lines 209 to 227). *)
Definition catchAddTransaction (a : nat) (message : string) (f : Frame) : M unit :=
  if String.eqb message gasLimitExceeded then
    if gasUsed f >? gasLimit f - 21000 then
      match toNumber (gasLimit f - gasUsed f) with
      | Some gasLeft =>
          effect (Logger (AssembledBlockFull gasLeft)) ;;
          iterate a (set_index (S (index f)) (set_blockFull true f))
      | None => putFrame a (set_pc Returned (set_blockFull true f))
      end
    else iterate a (set_index (S (index f)) f)
  else
    effect (Logger (SkippingTx (tx_hash (nth (index f) (txs f) dummyTx)) message)) ;;
    iterate a (set_index (S (index f)) f).

(** [assembleBlock], from the [await] at which the call [a] is suspended
    up to its next one. *)
Definition resume (a : nat) (r : Response) : M unit :=
  s <- get ;;
  match nth_error (frames s) a with
  | None => ret tt
  | Some f =>
      match pc f, r with
      | AwaitStateRoot, Resolved =>
          if isPoA then
            effect CallCliqueSignerInTurn ;;
            putFrame a (set_pc AwaitSignerInTurn f)
          else openBlockBuilder a f
      | AwaitSignerInTurn, InTurn inTurn =>
          openBlockBuilder a (set_difficulty (Some (if inTurn then 2 else 1)) f)
      | AwaitBuildBlock, BlockBuilder g =>
          effect (CallTxsByPriceAndNonce a (baseFeePerGas f)) ;;
          putFrame a (set_pc AwaitTxs (set_gasUsed g f))
      | AwaitTxs, Txs l =>
          if printable (baseFeePerGas f) then
            effect (Logger (AssemblingFrom (length l) (baseFeePerGas f))) ;;
            iterate a (set_blockFull false (set_index 0 (set_txs l f)))
          else putFrame a (set_pc Returned (set_txs l f))
      | AwaitAddTransaction, Added g =>
          iterate a (set_index (S (index f)) (set_gasUsed g f))
      | AwaitAddTransaction, Failed message g =>
          catchAddTransaction a message (set_gasUsed g f)
      | AwaitBuild, Built b =>
          effect (Logger (SealedBlock (length (transactions b)))) ;;
          modify (set_assembling false) ;;
          if interrupt f then putFrame a (set_pc Returned f)
          else
            effect (CallHandleNewBlock a b) ;;
            putFrame a (set_pc AwaitHandleNewBlock (set_block (Some b) f))
      | AwaitHandleNewBlock, Resolved =>
          match block f with
          | Some b => effect (CallRemoveNewBlockTxs a b)
          | None => ret tt
          end ;;
          g <- bindThis (HSetInterrupt a) ;;
          removeListener g ;;
          putFrame a (set_pc Returned f)
      | Returned, _ => ret tt
      | AwaitAddTransaction, Rejected => ret tt
      | _, Rejected => putFrame a (set_pc Returned f)
      | _, _ => ret tt
      end
  end.

(** Calling a function object. *)
Definition call (h : Handler) : M unit :=
  match h with
  | HChainUpdated => chainUpdated
  | HAssembleBlock => assembleBlock
  | HSetInterrupt a => setInterrupt a
  end.

(** [events.emit(Event.CHAIN_UPDATED)]: the listeners registered when the
    event is emitted are called in the order of their registration. *)
Definition emit : M unit :=
  fun s => (tt, fold_left (fun s' f => exec (call (fn_body f)) s') (listeners s) s).

(** A pending timeout expires. *)
Definition fire (t : nat) : M unit :=
  s <- get ;;
  match find (fun x => Nat.eqb (timer_id x) t) (timers s) with
  | Some x => clearTimeout t ;; call (fn_body (callback x))
  | None => ret tt
  end.

Definition step (s : State) (i : Input) : State :=
  match i with
  | Environment w => set_world w s
  | Start => exec start s
  | Stop => exec stop s
  | AssembleBlock => exec assembleBlock s
  | QueueNextAssembly timeout => exec (queueNextAssembly timeout) s
  | EmitChainUpdated => exec emit s
  | Fire t => exec (fire t) s
  | SignerInTurn q inTurn jitter => exec (queueNextAssembly_resume q inTurn jitter) s
  | SignerUnknown q => exec (queueNextAssembly_reject q) s
  | Resume a r => exec (resume a r) s
  end.

Definition run (s : State) (ins : list Input) : State := fold_left step ins s.

Definition reachable (s : State) : Prop :=
  exists w ins, s = run (init w) ins.

End Methods.

(** [handled a es]: [es] holds a call of [handleNewBlock] by the call [a]
    of [assembleBlock]. *)
Definition submits (a : nat) (e : Effect) : bool :=
  match e with
  | CallHandleNewBlock b _ => Nat.eqb a b
  | _ => false
  end.

Definition handled (a : nat) (es : list Effect) : bool := existsb (submits a) es.

(** The calls of [assembleBlock] that can still reach line 237. *)
Definition beforeSubmit (p : Pc) : bool :=
  match p with
  | AwaitHandleNewBlock | Returned => false
  | _ => true
  end.

(** The calls of [assembleBlock] that have not yet reached line 167. *)
Definition beforeBuilder (p : Pc) : bool :=
  match p with
  | AwaitStateRoot | AwaitSignerInTurn => true
  | _ => false
  end.

(** [answers p r]: [r] settles the promise awaited at [p]. *)
Definition answers (p : Pc) (r : Response) : bool :=
  match p, r with
  | AwaitStateRoot, (Resolved | Rejected) => true
  | AwaitSignerInTurn, (InTurn _ | Rejected) => true
  | AwaitBuildBlock, (BlockBuilder _ | Rejected) => true
  | AwaitTxs, (Txs _ | Rejected) => true
  | AwaitAddTransaction, (Added _ | Failed _ _) => true
  | AwaitBuild, (Built _ | Rejected) => true
  | AwaitHandleNewBlock, (Resolved | Rejected) => true
  | _, _ => false
  end.

(** How many promises an interrupted call of [assembleBlock] awaits at most
    before it returns. *)
Definition remaining (p : Pc) : nat :=
  match p with
  | AwaitStateRoot => 5
  | AwaitSignerInTurn => 4
  | AwaitBuildBlock => 3
  | AwaitTxs => 2
  | AwaitAddTransaction | AwaitBuild | AwaitHandleNewBlock => 1
  | Returned => 0
  end.

(** ** Invariants of the reachable states *)

(** What holds in every state the miner can reach: the function objects
    registered as listeners were all made before the next one; every call of
    [assembleBlock] has its [setInterrupt] registered; a call that has
    called [handleNewBlock] is past line 237; and a call that has not yet
    opened its block builder still holds the gas limit of its parent. *)
Record Inv (s : State) : Prop := {
  inv_fresh : forall g, In g (listeners s) -> (fn_id g < functions s)%nat;
  inv_listening : forall a, (a < length (frames s))%nat ->
    exists g, In g (listeners s) /\ fn_body g = HSetInterrupt a;
  inv_handled : forall a, handled a (effects s) = true ->
    exists f, nth_error (frames s) a = Some f /\ beforeSubmit (pc f) = false;
  inv_parent : forall a f, nth_error (frames s) a = Some f ->
    beforeBuilder (pc f) = true ->
    gasLimit f = hdr_gasLimit (parentBlockHeader f) /\
    number f = hdr_number (parentBlockHeader f) + 1
}.

(** [quiet s s']: from [s] to [s'] no listener, no frame and no call of
    [handleNewBlock] has changed. *)
Definition quiet (s s' : State) : Prop :=
  listeners s' = listeners s /\ (functions s <= functions s')%nat /\
  frames s' = frames s /\
  forall a, handled a (effects s') = handled a (effects s).

Definition calm (s s' : State) : Prop :=
  frames s' = frames s /\ forall a, handled a (effects s') = handled a (effects s).

(** [held a i s]: the call [a] of [assembleBlock] has not called
    [handleNewBlock], and when [i] is set its [interrupt] is set. *)
Definition held (a : nat) (i : bool) (s : State) : Prop :=
  (exists f, nth_error (frames s) a = Some f /\ (i = true -> interrupt f = true)) /\
  handled a (effects s) = false.

(** [still s s']: from [s] to [s'] the pending timeouts and the suspended
    calls of [queueNextAssembly] are the same. *)
Definition still (s s' : State) : Prop :=
  timers s' = timers s /\ nextAssemblyTimeoutId s' = nextAssemblyTimeoutId s /\
  queueing s' = queueing s.

(** At most one timeout is pending, and it is the one the miner remembers. *)
Definition OneTimer (s : State) : Prop :=
  (length (timers s) <= 1)%nat /\
  (forall t, In t (timers s) -> nextAssemblyTimeoutId s = Some (timer_id t)) /\
  queueing s = [].

(** The resumptions that run lines 167 to 193 of [assembleBlock]. *)
Definition opensBuilder (config : Config) (f : Frame) (r : Response) : bool :=
  match pc f, r with
  | AwaitStateRoot, Resolved => negb (isPoA config)
  | AwaitSignerInTurn, InTurn _ => true
  | _, _ => false
  end.

(** ** A chain to try the miner on *)

Definition exampleCommon (c : ConsensusType) : Common :=
  {| consensusType := c; consensusPeriod := Some 1;
     londonHardforkBlock := Some 3; initialBaseFee := 1000000000 |}.

Definition exampleConfig (c : ConsensusType) : Config :=
  {| mine := true; chainCommon := exampleCommon c |}.

Definition exampleHeader (n : Z) : BlockHeader :=
  {| hdr_number := n; hdr_gasLimit := 100000; hdr_timestamp := 1600000000;
     hdr_stateRoot := 7; calcNextBaseFee := 875000000 |}.

Definition exampleWorld (n : Z) : World :=
  {| latest := exampleHeader n;
     latestBlock := {| blk_header := exampleHeader n; transactions := [] |};
     isActivatedEIP1559 := 3 <=? n;
     cliqueCheckRecentlySigned := fun _ => false;
     now := 1600000000000 |}.

(** The state in which the call 0 of [assembleBlock] awaits its first
    [addTransaction], on a chain without proof of authority. *)
Definition assemblingState : State :=
  run (exampleConfig ProofOfWork) (init (exampleWorld 1))
    [Start; Fire 0; Resume 0 Resolved; Resume 0 (BlockBuilder 0);
     Resume 0 (Txs [dummyTx; dummyTx])].

Definition assemblingFrame : Frame :=
  {| pc := AwaitAddTransaction; interrupt := false;
     parentBlockHeader := exampleHeader 1; number := 2; gasLimit := 100000;
     difficulty := None; baseFeePerGas := None; txs := [dummyTx; dummyTx];
     index := 0; blockFull := false; gasUsed := 0; block := None |}.

Definition exampleBlock : Block :=
  {| blk_header := exampleHeader 2; transactions := [dummyTx; dummyTx] |}.

(** What is left of the assembly once both transactions are in. *)
Definition restOfAssembly : list Input :=
  [Resume 0 (Added 21000); Resume 0 (Added 42000); Resume 0 (Built exampleBlock);
   Resume 0 Resolved].

(** Three calls of [assembleBlock] on a started miner: the first is
    interrupted while it seals its block, the timeout set by the event
    starts the second, the first then returns from [build()], and a third
    call follows. *)
Definition overlappingAssemblies : list Input :=
  [Start; Fire 0; Resume 0 Resolved; Resume 0 (BlockBuilder 0); Resume 0 (Txs []);
   EmitChainUpdated; Fire 1; Resume 0 (Built exampleBlock); AssembleBlock].

(** The second and the third call run to their end. *)
Definition bothSubmit : list Input :=
  [Resume 1 Resolved; Resume 1 (BlockBuilder 0); Resume 1 (Txs []);
   Resume 1 (Built exampleBlock);
   Resume 2 Resolved; Resume 2 (BlockBuilder 0); Resume 2 (Txs []);
   Resume 2 (Built exampleBlock)].

(** The state in which the call 0 of [assembleBlock] builds the london block. *)
Definition londonState : State :=
  run (exampleConfig ProofOfWork) (init (exampleWorld 2)) [AssembleBlock].

Definition londonFrame : Frame :=
  {| pc := AwaitStateRoot; interrupt := false;
     parentBlockHeader := exampleHeader 2; number := 3; gasLimit := 100000;
     difficulty := None; baseFeePerGas := None; txs := [];
     index := 0; blockFull := false; gasUsed := 0; block := None |}.

(** ** What a call of [assembleBlock] asked of its collaborators *)

(** The transactions the call [a] handed to [addTransaction], the blocks it
    handed to [handleNewBlock] and the blocks it handed to
    [removeNewBlockTxs], each oldest first. *)
Fixpoint attempted (a : nat) (es : list Effect) : list Tx :=
  match es with
  | [] => []
  | CallAddTransaction b tx :: t =>
      if Nat.eqb a b then attempted a t ++ [tx] else attempted a t
  | _ :: t => attempted a t
  end.

Fixpoint submitted (a : nat) (es : list Effect) : list Block :=
  match es with
  | [] => []
  | CallHandleNewBlock b blk :: t =>
      if Nat.eqb a b then submitted a t ++ [blk] else submitted a t
  | _ :: t => submitted a t
  end.

Fixpoint removed (a : nat) (es : list Effect) : list Block :=
  match es with
  | [] => []
  | CallRemoveNewBlockTxs b blk :: t =>
      if Nat.eqb a b then removed a t ++ [blk] else removed a t
  | _ :: t => removed a t
  end.

Definition untouched (a : nat) (es : list Effect) : Prop :=
  attempted a es = [] /\ submitted a es = [] /\ removed a es = [].

(** Where a call of [assembleBlock] stands, by the [await] it is suspended
    at: what it has asked so far and what its local variables hold. *)
Definition traced (config : Config) (a : nat) (f : Frame) (es : list Effect) : Prop :=
  match pc f with
  | AwaitStateRoot => difficulty f = None /\ untouched a es
  | AwaitSignerInTurn => difficulty f = None /\ isPoA config = true /\ untouched a es
  | AwaitBuildBlock | AwaitTxs => untouched a es
  | AwaitAddTransaction =>
      attempted a es = firstn (S (index f)) (txs f) /\
      (index f < length (txs f))%nat /\
      submitted a es = [] /\ removed a es = []
  | AwaitBuild =>
      attempted a es = firstn (index f) (txs f) /\
      (blockFull f = false -> (length (txs f) <= index f)%nat) /\
      submitted a es = [] /\ removed a es = []
  | AwaitHandleNewBlock =>
      attempted a es = firstn (index f) (txs f) /\
      (blockFull f = false -> (length (txs f) <= index f)%nat) /\
      exists b, block f = Some b /\ submitted a es = [b] /\ removed a es = []
  | Returned =>
      (exists k, attempted a es = firstn k (txs f)) /\
      (submitted a es = [] /\ removed a es = [] \/
       exists b, submitted a es = [b] /\ (removed a es = [] \/ removed a es = [b]) /\
                 (blockFull f = false -> attempted a es = txs f))
  end.

Record Trace (config : Config) (s : State) : Prop := {
  trace_frames : forall a f, nth_error (frames s) a = Some f -> traced config a f (effects s);
  trace_none : forall a, (length (frames s) <= a)%nat -> untouched a (effects s)
}.

(** [hush s s']: from [s] to [s'] no frame has changed and no call has
    asked for a transaction to be added, a block to be handled or the
    pool to be cleaned. *)
Definition hush (s s' : State) : Prop :=
  frames s' = frames s /\
  forall a, attempted a (effects s') = attempted a (effects s) /\
            submitted a (effects s') = submitted a (effects s) /\
            removed a (effects s') = removed a (effects s).

(** [within s s']: from [s] to [s'] the listeners, the flag [assembling]
    and the surroundings are the same, and no call of [assembleBlock] has
    started. *)
Definition within (s s' : State) : Prop :=
  listeners s' = listeners s /\ assembling s' = assembling s /\
  world s' = world s /\ length (frames s') = length (frames s).

(** Every pending timeout runs [assembleBlock]. *)
Definition Alarm (s : State) : Prop :=
  forall t, In t (timers s) -> fn_body (callback t) = HAssembleBlock.

Definition isAssembleBlock (h : Handler) : bool :=
  match h with HAssembleBlock => true | _ => false end.

(** The inputs that unset [assembling]: the event, and the return of
    [build()]. *)
Definition clearsAssembling (i : Input) : bool :=
  match i with
  | EmitChainUpdated => true
  | Resume _ (Built _) => true
  | _ => false
  end.

(** [grows s s']: from [s] to [s'] listeners were added at the end and
    none was removed; none of the new ones runs [assembleBlock]. *)
Definition grows (s s' : State) : Prop :=
  exists extra,
    listeners s' = listeners s ++ extra /\
    forallb (fun g => negb (isAssembleBlock (fn_body g))) extra = true.

(** No listener of [CHAIN_UPDATED] runs [assembleBlock]. *)
Definition Tame (s : State) : Prop :=
  forall g, In g (listeners s) -> isAssembleBlock (fn_body g) = false.

(** [rings s s']: the timeouts pending in [s'] were pending in [s] or run
    [assembleBlock]. *)
Definition rings (s s' : State) : Prop :=
  forall t, In t (timers s') -> In t (timers s) \/ fn_body (callback t) = HAssembleBlock.

Definition isSetInterrupt (h : Handler) : bool :=
  match h with HSetInterrupt _ => true | _ => false end.

(** The call [a] of [assembleBlock] has its [interrupt] set. *)
Definition interrupted (a : nat) (s : State) : Prop :=
  exists f, nth_error (frames s) a = Some f /\ interrupt f = true.

(** The delay [chainUpdated] asks for: up to the timestamp of the latest
    block plus the period, and none when that moment has passed. *)
Definition nextAssemblyDelay (config : Config) (w : World) : Z :=
  Z.max 0 (hdr_timestamp (latest w) * 1000 + period config - now w).

(** Exactly one timeout is pending: it runs [assembleBlock] after the
    delay [d], and it is the one the miner remembers. *)
Definition scheduled (d : Z) (s : State) : Prop :=
  exists t, timers s = [t] /\ delay t = d /\
            fn_body (callback t) = HAssembleBlock /\
            nextAssemblyTimeoutId s = Some (timer_id t).

(** ** More states of the example chain *)

(** The example once the block of the call 0 is in the chain. *)
Definition assembledState : State :=
  run (exampleConfig ProofOfWork) assemblingState restOfAssembly.

Definition assembledFrame : Frame :=
  {| pc := Returned; interrupt := false;
     parentBlockHeader := exampleHeader 1; number := 2; gasLimit := 100000;
     difficulty := None; baseFeePerGas := None; txs := [dummyTx; dummyTx];
     index := 2; blockFull := false; gasUsed := 42000; block := Some exampleBlock |}.

(** A miner that has been started. *)
Definition startedState : State :=
  step (exampleConfig ProofOfWork) (init (exampleWorld 1)) Start.

(** The miner after [setStateRoot] has thrown in its first assembly. *)
Definition rejectedState : State :=
  run (exampleConfig ProofOfWork) (init (exampleWorld 1)) [Start; Fire 0; Resume 0 Rejected].

(** Calls and timeouts, with no event and no [build()] among them. *)
Definition withoutEvent : list Input :=
  [AssembleBlock; QueueNextAssembly None; Fire 1; Stop; Start; Fire 2; Resume 0 Resolved].

(** On a proof-of-authority chain, the call 0 of [assembleBlock] awaits
    [cliqueSignerInTurn]. *)
Definition signerState : State :=
  run (exampleConfig ProofOfAuthority) (init (exampleWorld 1))
    [AssembleBlock; Resume 0 Resolved].

Definition signerFrame : Frame :=
  {| pc := AwaitSignerInTurn; interrupt := false;
     parentBlockHeader := exampleHeader 1; number := 2; gasLimit := 100000;
     difficulty := None; baseFeePerGas := None; txs := [];
     index := 0; blockFull := false; gasUsed := 0; block := None |}.

End Miner.

(** * The eth protocol: the message registry of [EthProtocol] *)

Module EthProtocol.

Definition Buffer := list byte.

Definition valueOf (b : byte) : Z := Z.of_N (Byte.to_N b).

Definition byteOf (z : Z) : byte :=
  match Byte.of_N (Z.to_N z) with
  | Some b => b
  | None => x00
  end.

(** [new BN(buffer)]: the bytes read as a big-endian number. *)
Definition fromBuffer (b : Buffer) : Z :=
  fold_left (fun acc x => acc * 256 + valueOf x) b 0.

(** [BN.prototype.byteLength]. *)
Definition byteLength (n : Z) : Z :=
  if n =? 0 then 0 else Z.log2 (Z.abs n) / 8 + 1.

Fixpoint bigEndian (len : nat) (n : Z) : Buffer :=
  match len with
  | O => []
  | S k => bigEndian k (n / 256) ++ [byteOf (n mod 256)]
  end.

(** [BN.prototype.toArrayLike(Buffer)]: the magnitude, big-endian, on as
    many bytes as it needs and at least one. *)
Definition toArrayLike (n : Z) : Buffer :=
  bigEndian (Z.to_nat (Z.max 1 (byteLength n))) (Z.abs n).

(** [bufferToInt] of ethereumjs-util: [new BN(buf).toNumber()], which
    throws beyond 53 bits. *)
Definition bufferToInt (b : Buffer) : option Z :=
  if fromBuffer b <? 2 ^ 53 then Some (fromBuffer b) else None.

(** What a message encoder hands to the RLP layer. *)
#[warnings="-register-all"]
Inductive Item :=
| Buf (b : Buffer)
| Num (n : Z)
| Items (l : list Item).

(** [block: BN | Buffer]. *)
Inductive BlockRef :=
| ByNumber (n : Z)
| ByHash (h : Buffer).

Record GetBlockHeadersOpts := {
  gbh_reqId : option Z;
  gbh_block : BlockRef;
  gbh_max : Z;
  gbh_skip : option Z;
  gbh_reverse : option bool
}.

Record GetBlockBodiesOpts := {
  gbb_reqId : option Z;
  gbb_hashes : list Buffer
}.

Record GetPooledTransactionsOpts := {
  gpt_reqId : option Z;
  gpt_hashes : list Buffer
}.

(** What the RLP layer hands to a decoder: [rlp.decode] returns byte strings
    in nested lists. *)
#[warnings="-register-all"]
Inductive Rlp :=
| Str (b : Buffer)
| Arr (l : list Rlp).

(** What a variable of a decoder's pattern is bound to: an element of a
    list, an element of a byte string, which is a number below 256, or
    [undefined] where there is no element. *)
Inductive Value :=
| Undefined
| Octet (x : byte)
| Data (t : Rlp).

(** The [block] of a decoded GetBlockHeaders message: [new BN(block)], or
    what the message held, as it is. *)
Inductive Selector :=
| Number (n : Z)
| Same (v : Value).

(** The decoded GetBlockHeaders message. *)
Record GetBlockHeaders := {
  reqId : Z;
  block : Selector;
  max : Z;
  skip : Z;
  reverse : bool
}.

(** The module-level counter [const id = new BN(0)], shared by every
    encoder of every instance of the protocol. *)
Definition initialId : Z := 0.

(** [reqId === undefined ? id.iaddn(1) : new BN(reqId)]: the request id of
    the message and the counter afterwards. *)
Definition assignReqId (reqId : option Z) (id : Z) : Z * Z :=
  match reqId with
  | None => (id + 1, id + 1)
  | Some r => (r, id)
  end.

(** The encoder of GetBlockHeaders, with the counter afterwards. *)
Definition encodeGetBlockHeaders (o : GetBlockHeadersOpts) (id : Z) : Item * Z :=
  let (r, id') := assignReqId (gbh_reqId o) id in
  (Items
     [Buf (toArrayLike r);
      Items
        [match gbh_block o with
         | ByNumber n => Buf (toArrayLike n)
         | ByHash h => Buf h
         end;
         Num (gbh_max o);
         Num (match gbh_skip o with Some k => k | None => 0 end);
         Num (if negb (match gbh_reverse o with Some b => b | None => false end)
              then 0 else 1)]],
   id').

(** ** Decoding

    A decoder is a function of whatever [rlp.decode] returned, and its
    pattern binds variables without a test: what follows gives each
    JavaScript operation of the decoder on each value a variable can hold. *)

(** [[x0, x1, ...] = v]: the elements of [v] by position.  A byte string
    yields its bytes as numbers; past the end every position is
    [undefined].  [None] stands for the TypeError of a value that cannot be
    taken apart, a number or [undefined]. *)
Definition elements (v : Value) : option (nat -> Value) :=
  match v with
  | Data (Arr l) =>
      Some (fun i => match nth_error l i with Some t => Data t | None => Undefined end)
  | Data (Str b) =>
      Some (fun i => match nth_error b i with Some x => Octet x | None => Undefined end)
  | Octet _ | Undefined => None
  end.

(** [v.length === 32]: a number has no length, and [None] stands for the
    TypeError of [undefined.length]. *)
Definition hasLength32 (v : Value) : option bool :=
  match v with
  | Undefined => None
  | Octet _ => Some false
  | Data (Str b) => Some (Nat.eqb (length b) 32)
  | Data (Arr l) => Some (Nat.eqb (length l) 32)
  end.

Section Decoders.

(** What the libraries make of an array that holds byte strings and arrays
    where a number or a byte string is expected: [new BN(array)] of bn.js,
    and [Buffer.from(array)] of Node, which [toBuffer] of ethereumjs-util
    calls.  Neither is code of this repository, and both coerce the
    elements as JavaScript coerces objects to numbers; they are taken as
    they come. *)
Variable arrayToBN : list Rlp -> Z.
Variable arrayToBuffer : list Rlp -> Buffer.

(** [new BN(v)]: [undefined] gives 0, a number itself, a byte string its
    big-endian value. *)
Definition newBN (v : Value) : Z :=
  match v with
  | Undefined => 0
  | Octet x => valueOf x
  | Data (Str b) => fromBuffer b
  | Data (Arr l) => arrayToBN l
  end.

(** [toBuffer(v)] of ethereumjs-util: [undefined] gives the empty byte
    string, a number below 256 the one byte that holds it. *)
Definition toBuffer (v : Value) : Buffer :=
  match v with
  | Undefined => []
  | Octet x => [x]
  | Data (Str b) => b
  | Data (Arr l) => arrayToBuffer l
  end.

(** The decoder of GetBlockHeaders, lines 353 to 359:
    [[reqId, [block, max, skip, reverse]]] takes the message apart, and
    [bufferToInt(v)] is [new BN(toBuffer(v)).toNumber()].  [None] stands
    for an exception: a message or a second element that cannot be taken
    apart, [block.length] on a block that is missing, and [toNumber]
    beyond 53 bits. *)
Definition decodeGetBlockHeaders (t : Rlp) : option GetBlockHeaders :=
  match elements (Data t) with
  | None => None
  | Some top =>
      match elements (top 1%nat) with
      | None => None
      | Some body =>
          match hasLength32 (body 0%nat),
                bufferToInt (toBuffer (body 1%nat)),
                bufferToInt (toBuffer (body 2%nat)),
                bufferToInt (toBuffer (body 3%nat)) with
          | Some is32, Some m', Some s', Some rv' =>
              Some {| reqId := newBN (top 0%nat);
                      block := if is32 then Same (body 0%nat)
                               else Number (newBN (body 0%nat));
                      max := m';
                      skip := s';
                      reverse := if rv' =? 0 then false else true |}
          | _, _, _, _ => None
          end
      end
  end.

End Decoders.

Definition encodeGetBlockBodies (o : GetBlockBodiesOpts) (id : Z) : Item * Z :=
  let (r, id') := assignReqId (gbb_reqId o) id in
  (Items [Buf (toArrayLike r); Items (map Buf (gbb_hashes o))], id').

Definition encodeGetPooledTransactions (o : GetPooledTransactionsOpts) (id : Z)
  : Item * Z :=
  let (r, id') := assignReqId (gpt_reqId o) id in
  (Items [Buf (toArrayLike r); Items (map Buf (gpt_hashes o))], id').

(** The request messages of the registry. *)
Inductive Request :=
| ReqGetBlockHeaders (o : GetBlockHeadersOpts)
| ReqGetBlockBodies (o : GetBlockBodiesOpts)
| ReqGetPooledTransactions (o : GetPooledTransactionsOpts).

Definition callerReqId (q : Request) : option Z :=
  match q with
  | ReqGetBlockHeaders o => gbh_reqId o
  | ReqGetBlockBodies o => gbb_reqId o
  | ReqGetPooledTransactions o => gpt_reqId o
  end.

Definition encode (q : Request) (id : Z) : Item * Z :=
  match q with
  | ReqGetBlockHeaders o => encodeGetBlockHeaders o id
  | ReqGetBlockBodies o => encodeGetBlockBodies o id
  | ReqGetPooledTransactions o => encodeGetPooledTransactions o id
  end.

(** Encoding the requests one after the other. *)
Fixpoint encodeAll (qs : list Request) (id : Z) : list Item * Z :=
  match qs with
  | [] => ([], id)
  | q :: qs' =>
      let (t, id') := encode q id in
      let (ts, id'') := encodeAll qs' id' in
      (t :: ts, id'')
  end.

(** The request id an encoded request carries on the wire. *)
Definition wireReqId (t : Item) : option Z :=
  match t with
  | Items (Buf r :: _) => Some (fromBuffer r)
  | _ => None
  end.

(** [get versions()]. *)
Definition versions : list Z := [66].

(** ** The other messages that carry a request id *)

(** The RLP layer between two peers, [rlp.encode] on one side and
    [rlp.decode] on the other, which is not code of this repository: byte
    strings and lists arrive as they were sent, and a number arrives as its
    big-endian bytes, 0 as the empty byte string.  [None] stands for the
    exception of [rlp.encode] on a negative number. *)
Fixpoint rlp (t : Item) : option Rlp :=
  match t with
  | Buf b => Some (Str b)
  | Num n => if n <? 0 then None else Some (Str (if n =? 0 then [] else toArrayLike n))
  | Items l =>
      option_map Arr
        ((fix each (l : list Item) : option (list Rlp) :=
            match l with
            | [] => Some []
            | x :: r =>
                match rlp x, each r with
                | Some y, Some ys => Some (y :: ys)
                | _, _ => None
                end
            end) l)
  end.

(** [[reqId, rest] = t] on what the RLP layer delivers: the first two
    positions of the message. *)
Definition element (t : Rlp) (i : nat) : Value :=
  match t with
  | Arr l => match nth_error l i with Some x => Data x | None => Undefined end
  | Str b => match nth_error b i with Some x => Octet x | None => Undefined end
  end.

Section RequestIds.

Variable arrayToBN : list Rlp -> Z.

(** The decoders of GetBlockBodies and GetPooledTransactions, lines 386
    and 425: the request id, and the hashes as they are. *)
Definition decodeGetBlockBodies (t : Rlp) : Z * Value :=
  (newBN arrayToBN (element t 0), element t 1).

Definition decodeGetPooledTransactions (t : Rlp) : Z * Value :=
  (newBN arrayToBN (element t 0), element t 1).

(** The decoder of BlockBodies, line 398. *)
Definition decodeBlockBodies (t : Rlp) : Z * Value :=
  (newBN arrayToBN (element t 0), element t 1).

End RequestIds.

(** The encoder of BlockBodies, line 394: the request id of the request and
    the bodies as they are. *)
Definition encodeBlockBodies (reqId : Z) (bodies : Item) : Item :=
  Items [Buf (toArrayLike reqId); bodies].

(** A transaction as the encoders see it: its type, and what its methods
    [raw()] and [serialize()] return. *)
Record TypedTransaction := {
  tx_type : Z;
  raw : list Buffer;
  serialize : Buffer
}.

(** The loop of the encoders of Transactions and PooledTransactions. *)
Definition serializeTxs (txs : list TypedTransaction) : list Item :=
  map (fun tx => if tx_type tx =? 0 then Items (map Buf (raw tx))
                 else Buf (serialize tx)) txs.

(** [BN.prototype.toNumber]: it throws beyond 53 bits. *)
Definition toNumber (z : Z) : option Z :=
  if Z.abs z <? 2 ^ 53 then Some z else None.

(** The encoder of PooledTransactions, line 433: it writes the request id
    with [toNumber()], where BlockHeaders and BlockBodies write it with
    [toArrayLike(Buffer)]. *)
Definition encodePooledTransactions (reqId : Z) (txs : list TypedTransaction)
  : option Item :=
  match toNumber reqId with
  | Some n => Some (Items [Num n; Items (serializeTxs txs)])
  | None => None
  end.

(** How many of the requests carry no request id of their own. *)
Definition unnumbered (qs : list Request) : nat :=
  length (filter (fun q => match callerReqId q with None => true | Some _ => false end) qs).

(** The request id a request is sent with when the counter is [id]. *)
Definition sentReqId (q : Request) (id : Z) : Z := fst (assignReqId (callerReqId q) id).

End EthProtocol.


(** * Properties of the miner *)

Import Miner.
#[local] Open Scope miner_scope.

(** Unfolding the primitives of the monad, and the fields of a frame. *)
Ltac monad := unfold exec, bind, ret, get, modify, effect, bindThis, on,
  removeListener, setTimeout, clearTimeout, newFrame, putFrame in *.

Ltac frame_fields :=
  cbn [pc interrupt index txs blockFull gasUsed gasLimit
       set_pc set_index set_gasUsed set_blockFull] in *.

(** ** Lists *)

Lemma length_update {A : Type} (n : nat) (x : A) (l : list A) :
  length (update n x l) = length l.
Proof.
  revert n; induction l as [|h t IH]; intros [|n]; simpl; auto.
Qed.

Lemma nth_error_update_eq {A : Type} (n : nat) (x y : A) (l : list A) :
  nth_error l n = Some y -> nth_error (update n x l) n = Some x.
Proof.
  revert n; induction l as [|h t IH]; intros [|n]; simpl; try discriminate; auto.
Qed.

Lemma nth_error_update_neq {A : Type} (n m : nat) (x : A) (l : list A) :
  n <> m -> nth_error (update n x l) m = nth_error l m.
Proof.
  revert n m; induction l as [|h t IH]; intros [|n] [|m] H; simpl; auto.
  congruence.
Qed.

Lemma nth_error_snoc_old {A : Type} (l : list A) (x y : A) (n : nat) :
  nth_error l n = Some y -> nth_error (l ++ [x]) n = Some y.
Proof.
  intros H. rewrite nth_error_app1; auto.
  apply nth_error_Some. congruence.
Qed.

Lemma remove_first_absent (i : nat) (l : list Fn) :
  (forall g, In g l -> fn_id g <> i) -> remove_first i l = l.
Proof.
  induction l as [|g t IH]; intros H; simpl; auto.
  destruct (Nat.eqb_spec (fn_id g) i) as [E|E].
  - exfalso. apply (H g); simpl; auto.
  - f_equal. apply IH. intros g' Hg'. apply H. simpl; auto.
Qed.

(** Removing a function object that was never registered removes nothing. *)
Lemma remove_last_fresh (i : nat) (l : list Fn) :
  (forall g, In g l -> (fn_id g < i)%nat) -> remove_last i l = l.
Proof.
  intros H. unfold remove_last.
  rewrite remove_first_absent, rev_involutive; auto.
  intros g Hg. apply in_rev in Hg. apply H in Hg. lia.
Qed.

(** ** The invariants of the reachable states *)

Lemma quiet_refl s : quiet s s.
Proof. unfold quiet; intuition. Qed.

Lemma quiet_trans s1 s2 s3 : quiet s1 s2 -> quiet s2 s3 -> quiet s1 s3.
Proof.
  unfold quiet. intros (A1 & A2 & A3 & A7) (B1 & B2 & B3 & B7).
  repeat split; try congruence; try lia.
Qed.

Lemma Inv_quiet s s' : quiet s s' -> Inv s -> Inv s'.
Proof.
  intros (A1 & A2 & A3 & A7) [I1 I2 I3 I4].
  split.
  - rewrite A1. intros g Hg. apply I1 in Hg. lia.
  - rewrite A1, A3. exact I2.
  - intros a. rewrite A7, A3. apply I3.
  - rewrite A3. exact I4.
Qed.

Lemma exec_bind {A B : Type} (m : M A) (k : A -> M B) (s : State) :
  exec (bind m k) s = exec (k (fst (m s))) (exec m s).
Proof. unfold exec, bind. destruct (m s); reflexivity. Qed.

Lemma quiet_effect e s : (forall a, submits a e = false) -> quiet s (exec (effect e) s).
Proof.
  intros H. unfold quiet; cbn. repeat split; auto.
  intros a. rewrite H. reflexivity.
Qed.

Section Invariants.

Variable config : Config.

Lemma quiet_queueNextAssembly t s : quiet s (exec (queueNextAssembly config t) s).
Proof.
  unfold queueNextAssembly, schedule. monad.
  destruct (nextAssemblyTimeoutId s), (isPoA config); cbn; unfold quiet; cbn; repeat split; auto.
Qed.

Lemma quiet_queueNextAssembly_resume q b j s :
  quiet s (exec (queueNextAssembly_resume q b j) s).
Proof.
  unfold queueNextAssembly_resume, schedule. monad.
  destruct (nth_error (queueing s) q) as [[t [|]]|]; cbn; unfold quiet; cbn; repeat split; auto.
Qed.

Lemma quiet_queueNextAssembly_reject q s :
  quiet s (exec (queueNextAssembly_reject q) s).
Proof.
  unfold queueNextAssembly_reject. monad.
  destruct (nth_error (queueing s) q) as [[t [|]]|]; cbn; unfold quiet; cbn; repeat split; auto.
Qed.

Lemma quiet_chainUpdated s : quiet s (exec (chainUpdated config) s).
Proof.
  unfold chainUpdated. monad.
  destruct (_ <? _); [|apply quiet_refl].
  destruct (toNumber _); [destruct (toNumber _)|]; cbn -[queueNextAssembly]; try apply quiet_refl.
  match goal with |- quiet _ (snd (queueNextAssembly _ ?t ?s')) =>
    apply quiet_trans with s'; [|apply (quiet_queueNextAssembly t s')] end.
  unfold quiet; cbn; repeat split; auto.
Qed.

Lemma Inv_putFrame s s' a f f' :
  Inv s -> nth_error (frames s) a = Some f ->
  listeners s' = listeners s -> (functions s <= functions s')%nat ->
  frames s' = update a f' (frames s) ->
  (forall b, handled b (effects s') = true ->
     handled b (effects s) = true \/ (b = a /\ beforeSubmit (pc f') = false)) ->
  (beforeSubmit (pc f) = false -> beforeSubmit (pc f') = false) ->
  (beforeBuilder (pc f') = true ->
     beforeBuilder (pc f) = true /\ gasLimit f' = gasLimit f /\
     number f' = number f /\ parentBlockHeader f' = parentBlockHeader f) ->
  Inv s'.
Proof.
  intros [I1 I2 I3 I4] Hf HL HF HU HH HS HB. split.
  - rewrite HL. intros g Hg. apply I1 in Hg. lia.
  - rewrite HL, HU, length_update. exact I2.
  - intros b Hb. rewrite HU.
    destruct (Nat.eq_dec a b) as [<-|Hab].
    + exists f'. split; [eapply nth_error_update_eq; eauto|].
      destruct (HH a Hb) as [Hold|[_ ?]]; auto.
      apply HS. destruct (I3 a Hold) as (f0 & Hf0 & ?). congruence.
    + rewrite nth_error_update_neq by auto.
      destruct (HH b Hb) as [Hold|[? _]]; [auto|congruence].
  - intros b f0. rewrite HU.
    destruct (Nat.eq_dec a b) as [<-|Hab].
    + rewrite (nth_error_update_eq _ _ _ _ Hf). intros [= <-] Hp.
      destruct (HB Hp) as (? & -> & -> & ->). eauto.
    + rewrite nth_error_update_neq by auto. apply I4.
Qed.

Lemma Inv_init w : Inv (init w).
Proof.
  split; cbn.
  - intros g [].
  - intros a H; lia.
  - discriminate.
  - intros [|a] f; discriminate.
Qed.

Lemma Inv_set_world w s : Inv s -> Inv (set_world w s).
Proof. intros [I1 I2 I3 I4]. split; cbn; auto. Qed.

Lemma Inv_start s : Inv s -> Inv (exec (start config) s).
Proof.
  intros I. unfold start. rewrite exec_bind.
  change (exec get s) with s. change (fst (get s)) with s.
  destruct (negb (mine config) || running s); [exact I|].
  rewrite !exec_bind.
  match goal with |- Inv (exec _ (exec _ (exec _ ?s1))) =>
    apply Inv_quiet with (s := s1) end.
  { eapply quiet_trans; [apply quiet_queueNextAssembly|].
    apply quiet_effect; reflexivity. }
  destruct I as [I1 I2 I3 I4]. split; cbn; auto.
  - intros g Hg. apply in_app_or in Hg as [Hg|[<-|[]]].
    + apply I1 in Hg. lia.
    + cbn. lia.
  - intros a Ha. destruct (I2 a Ha) as (g & ? & ?).
    exists g. split; auto. apply in_or_app; auto.
Qed.

Lemma stop_listeners s :
  (forall g, In g (listeners s) -> (fn_id g < functions s)%nat) ->
  listeners (exec stop s) = listeners s.
Proof.
  intros I1. unfold stop. monad.
  destruct (negb (running s)); [reflexivity|].
  destruct (nextAssemblyTimeoutId s); cbn; apply remove_last_fresh; exact I1.
Qed.

Lemma Inv_stop s : Inv s -> Inv (exec stop s).
Proof.
  intros I. apply Inv_quiet with (2 := I).
  unfold quiet. split; [apply stop_listeners, I|].
  unfold stop. monad.
  destruct (negb (running s)); [cbn; auto|].
  destruct (nextAssemblyTimeoutId s); cbn; auto.
Qed.

Lemma Inv_setInterrupt a s : Inv s -> Inv (exec (setInterrupt a) s).
Proof.
  intros I. unfold setInterrupt. monad.
  destruct (nth_error (frames s) a) as [f|] eqn:Hf; cbn.
  - eapply Inv_putFrame with (f' := set_interrupt true f); eauto; cbn; auto.
  - destruct I as [I1 I2 I3 I4]. split; cbn; auto.
Qed.

Lemma Inv_assembleBlock s : Inv s -> Inv (exec (assembleBlock config) s).
Proof.
  intros I. unfold assembleBlock. rewrite exec_bind.
  change (exec get s) with s. change (fst (get s)) with s.
  destruct (assembling s); [exact I|].
  set (fr := {| pc := AwaitStateRoot; interrupt := false;
                parentBlockHeader := latest (world s);
                number := hdr_number (latest (world s)) + 1;
                gasLimit := hdr_gasLimit (latest (world s)); difficulty := None;
                baseFeePerGas := None; txs := []; index := 0;
                blockFull := false; gasUsed := 0; block := None |}).
  set (g := {| fn_id := functions s; fn_body := HSetInterrupt (length (frames s)) |}).
  assert (I0 : Inv (set_listeners (listeners s ++ [g])
                 (set_functions (S (functions s))
                    (set_frames (frames s ++ [fr]) (set_assembling true s))))).
  { destruct I as [I1 I2 I3 I4]. split; cbn.
    - intros h Hh. apply in_app_or in Hh as [Hh|[<-|[]]].
      + apply I1 in Hh. lia.
      + cbn. lia.
    - intros a. rewrite length_app. cbn. intros Ha.
      destruct (Nat.eq_dec a (length (frames s))) as [->|Hne].
      + exists g. split; auto. apply in_or_app; cbn; auto.
      + destruct (I2 a) as (h & ? & ?); [lia|].
        exists h. split; auto. apply in_or_app; auto.
    - intros a Ha. destruct (I3 a Ha) as (f & Hf & ?).
      exists f. split; auto. apply nth_error_snoc_old; auto.
    - intros a f Hf Hp.
      destruct (Nat.lt_ge_cases a (length (frames s))) as [Hlt|Hge].
      + rewrite nth_error_app1 in Hf by auto. eauto.
      + rewrite nth_error_app2 in Hf by auto.
        destruct (a - length (frames s))%nat as [|[|k]]; cbn in Hf; try discriminate.
        injection Hf as <-. cbn. auto. }
  rewrite !exec_bind. monad. cbn. fold fr. fold g.
  destruct (isPoA config && cliqueCheckRecentlySigned (world s) (hdr_number (latest (world s)) + 1)).
  - cbn. fold fr g.
    destruct (nth_error (frames s ++ [fr]) (length (frames s))) as [f0|] eqn:Hf0.
    + cbn. eapply Inv_putFrame with (s := set_listeners _ _) (f' := set_pc Returned f0);
        [exact I0|exact Hf0|..]; cbn; auto. discriminate.
    + cbn. apply Inv_quiet with (2 := I0). unfold quiet; cbn; auto.
  - destruct (hdr_number (latest (world s)) =? 0); cbn;
      (apply Inv_quiet with (2 := I0); unfold quiet; cbn; auto).
Qed.


Ltac frame_step I Hf :=
  eapply Inv_putFrame;
  [ exact I | exact Hf
  | cbn; first [reflexivity | apply remove_last_fresh; apply I]
  | cbn; lia
  | cbn; reflexivity
  | let c := fresh "c" in
    let Hc := fresh "Hc" in
    cbn; intros c Hc;
    first [ left; exact Hc
          | unfold handled in Hc; cbn in Hc;
            apply orb_true_iff in Hc as [Hc|Hc];
            [apply Nat.eqb_eq in Hc; auto | auto] ]
  | cbn; repeat match goal with H : pc _ = _ |- _ => rewrite H end;
    cbn; try tauto; try congruence
  | cbn; repeat match goal with H : pc _ = _ |- _ => rewrite H end;
    cbn; try discriminate; try tauto ].

Lemma Inv_iterate a f0 f s :
  Inv s -> nth_error (frames s) a = Some f0 ->
  (beforeSubmit (pc f0) = false -> False) ->
  Inv (exec (iterate a f) s).
Proof.
  intros I Hf H. unfold iterate. monad.
  destruct ((index f <? length (txs f))%nat && negb (blockFull f) && negb (interrupt f));
    [|destruct (interrupt f)]; cbn; frame_step I Hf.
Qed.

Lemma Inv_effect e s : (forall a, submits a e = false) -> Inv s -> Inv (exec (effect e) s).
Proof. intros H. apply Inv_quiet, quiet_effect, H. Qed.

Lemma Inv_openBlockBuilder a f0 f s :
  Inv s -> nth_error (frames s) a = Some f0 ->
  (beforeSubmit (pc f0) = false -> False) ->
  Inv (exec (openBlockBuilder config a f) s).
Proof.
  intros I Hf H. unfold openBlockBuilder. monad. cbn. frame_step I Hf.
Qed.

Lemma Inv_catchAddTransaction a m f0 f s :
  Inv s -> nth_error (frames s) a = Some f0 ->
  (beforeSubmit (pc f0) = false -> False) ->
  Inv (exec (catchAddTransaction a m f) s).
Proof.
  intros I Hf H. unfold catchAddTransaction.
  destruct (String.eqb m gasLimitExceeded).
  - destruct (gasUsed f >? gasLimit f - 21000).
    + destruct (toNumber _).
      * rewrite exec_bind. eapply Inv_iterate; eauto.
        apply Inv_effect; auto.
      * monad; cbn. frame_step I Hf.
    + eapply Inv_iterate; eauto.
  - rewrite exec_bind. eapply Inv_iterate; eauto.
    apply Inv_effect; auto.
Qed.

Lemma Inv_resume a r s : Inv s -> Inv (exec (resume config a r) s).
Proof.
  intros I. unfold resume. rewrite exec_bind.
  change (exec get s) with s. change (fst (get s)) with s.
  destruct (nth_error (frames s) a) as [f|] eqn:Hf; [|exact I].
  assert (Hnot : forall p, pc f = p -> beforeSubmit p = true ->
                 beforeSubmit (pc f) = false -> False) by (intros; congruence).
  assert (Hpc : exists p, pc f = p) by eauto. destruct Hpc as [p Hpc].
  destruct p, r; rewrite Hpc; try exact I;
    try solve [monad; cbn; frame_step I Hf; rewrite Hpc; cbn; auto ].
  - destruct (isPoA config).
    + monad; cbn; frame_step I Hf.
    + eapply Inv_openBlockBuilder; eauto.
  - destruct (printable (baseFeePerGas f)).
    + rewrite exec_bind. eapply Inv_iterate; eauto.
      apply Inv_effect; auto.
    + monad; cbn; frame_step I Hf.
  - eapply Inv_iterate; eauto.
  - eapply Inv_catchAddTransaction; eauto.
  - destruct (interrupt f); monad; cbn; frame_step I Hf.
  - destruct (block f); monad; cbn; frame_step I Hf.
Qed.

Lemma Inv_call h s : Inv s -> Inv (exec (call config h) s).
Proof.
  destruct h; cbn [call]; intros I.
  - apply Inv_quiet with (2 := I), quiet_chainUpdated.
  - apply Inv_assembleBlock, I.
  - apply Inv_setInterrupt, I.
Qed.

Lemma Inv_fold l s :
  Inv s -> Inv (fold_left (fun s' f => exec (call config (fn_body f)) s') l s).
Proof.
  revert s; induction l as [|g l IH]; intros s I; cbn; auto.
  apply IH, Inv_call, I.
Qed.

Lemma quiet_clearTimeout t s : quiet s (exec (clearTimeout t) s).
Proof. unfold quiet; cbn; auto. Qed.

Lemma Inv_fire t s : Inv s -> Inv (exec (fire config t) s).
Proof.
  intros I. unfold fire. rewrite exec_bind.
  change (exec get s) with s. change (fst (get s)) with s.
  destruct (find _ _); [|exact I].
  rewrite exec_bind. apply Inv_call.
  apply Inv_quiet with (2 := I), quiet_clearTimeout.
Qed.

Lemma Inv_step s i : Inv s -> Inv (step config s i).
Proof.
  intros I. destruct i; cbn [step].
  - apply Inv_set_world, I.
  - apply Inv_start, I.
  - apply Inv_stop, I.
  - apply Inv_assembleBlock, I.
  - apply Inv_quiet with (2 := I), quiet_queueNextAssembly.
  - apply Inv_fold, I.
  - apply Inv_fire, I.
  - apply Inv_quiet with (2 := I), quiet_queueNextAssembly_resume.
  - apply Inv_quiet with (2 := I), quiet_queueNextAssembly_reject.
  - apply Inv_resume, I.
Qed.

Lemma Inv_run ins s : Inv s -> Inv (run config s ins).
Proof.
  revert s; induction ins as [|i ins IH]; intros s I; cbn; auto.
  apply IH, Inv_step, I.
Qed.

Lemma Inv_reachable s : reachable config s -> Inv s.
Proof. intros (w & ins & ->). apply Inv_run, Inv_init. Qed.

(** [stop()] removes no listener at all, in any state the miner can reach. *)
Lemma stop_removes_no_listener s :
  reachable config s -> listeners (step config s Stop) = listeners s.
Proof. intros R. apply stop_listeners, Inv_reachable, R. Qed.


Lemma quiet_calm s s' : quiet s s' -> calm s s'.
Proof. unfold quiet, calm. tauto. Qed.

Lemma calm_trans s1 s2 s3 : calm s1 s2 -> calm s2 s3 -> calm s1 s3.
Proof.
  intros [A1 A2] [B1 B2]. split; [congruence|].
  intros a. rewrite B2. apply A2.
Qed.

Lemma held_calm a i s s' : calm s s' -> held a i s -> held a i s'.
Proof.
  intros [C1 C2] [H1 H2]. split.
  - rewrite C1. exact H1.
  - rewrite C2. exact H2.
Qed.

Lemma held_putFrame a i s s' b f f' :
  held a i s -> nth_error (frames s) b = Some f ->
  frames s' = update b f' (frames s) ->
  (interrupt f = true -> interrupt f' = true) ->
  handled a (effects s') = handled a (effects s) ->
  held a i s'.
Proof.
  intros [(f0 & Hf0 & Hi) H2] Hf HU HI HE. split.
  - rewrite HU. destruct (Nat.eq_dec b a) as [->|Hne].
    + exists f'. split; [eapply nth_error_update_eq; eauto|].
      intros E. apply HI. rewrite Hf in Hf0. injection Hf0 as ->. auto.
    + exists f0. rewrite nth_error_update_neq by auto. auto.
  - rewrite HE. exact H2.
Qed.

Ltac held_step H Hf :=
  eapply held_putFrame;
  [ exact H | exact Hf | cbn; reflexivity | cbn; auto | cbn; auto ].

Lemma calm_start s : calm s (exec (start config) s).
Proof.
  unfold start. rewrite exec_bind.
  change (exec get s) with s. change (fst (get s)) with s.
  destruct (negb (mine config) || running s); [split; auto|].
  rewrite !exec_bind.
  match goal with |- calm _ (exec _ (exec _ (exec _ ?s1))) =>
    apply calm_trans with s1 end.
  - split; cbn; auto.
  - apply quiet_calm. eapply quiet_trans; [apply quiet_queueNextAssembly|].
    apply quiet_effect; reflexivity.
Qed.

Lemma calm_stop s : calm s (exec stop s).
Proof.
  unfold stop. monad.
  destruct (negb (running s)); [split; auto|].
  destruct (nextAssemblyTimeoutId s); split; cbn; auto.
Qed.

Lemma held_setInterrupt a i b s : held a i s -> held a i (exec (setInterrupt b) s).
Proof.
  intros H. unfold setInterrupt. monad.
  destruct (nth_error (frames s) b) as [f|] eqn:Hf; cbn.
  - held_step H Hf.
  - eapply held_calm; [|exact H]. split; auto.
Qed.

Lemma setInterrupt_dooms a s : held a false s -> held a true (exec (setInterrupt a) s).
Proof.
  intros [(f & Hf & _) H2]. unfold setInterrupt. monad. rewrite Hf. cbn.
  split; cbn; auto.
  exists (set_interrupt true f). split; auto.
  eapply nth_error_update_eq; eauto.
Qed.

Lemma held_assembleBlock a i s : held a i s -> held a i (exec (assembleBlock config) s).
Proof.
  intros H. unfold assembleBlock. rewrite exec_bind.
  change (exec get s) with s. change (fst (get s)) with s.
  destruct (assembling s); [exact H|].
  set (fr := {| pc := AwaitStateRoot; interrupt := false;
                parentBlockHeader := latest (world s);
                number := hdr_number (latest (world s)) + 1;
                gasLimit := hdr_gasLimit (latest (world s)); difficulty := None;
                baseFeePerGas := None; txs := []; index := 0;
                blockFull := false; gasUsed := 0; block := None |}).
  assert (H0 : held a i (set_frames (frames s ++ [fr]) s)).
  { destruct H as [(f & Hf & Hi) H2]. split; cbn; auto.
    exists f. split; auto. apply nth_error_snoc_old; auto. }
  rewrite !exec_bind. monad. cbn. fold fr.
  destruct (isPoA config && cliqueCheckRecentlySigned (world s) (hdr_number (latest (world s)) + 1)).
  - cbn. fold fr.
    destruct (nth_error (frames s ++ [fr]) (length (frames s))) as [f0|] eqn:Hf0; cbn.
    + eapply held_putFrame with (s := set_frames _ s) (f' := set_pc Returned f0);
        [exact H0|exact Hf0|..]; cbn; auto.
    + eapply held_calm; [|exact H0]. split; cbn; auto.
  - destruct (hdr_number (latest (world s)) =? 0); cbn;
      (eapply held_calm; [|exact H0]; split; cbn; auto).
Qed.

Lemma held_call a i h s : held a i s -> held a i (exec (call config h) s).
Proof.
  destruct h; cbn [call]; intros H.
  - eapply held_calm; [|exact H]. apply quiet_calm, quiet_chainUpdated.
  - apply held_assembleBlock, H.
  - apply held_setInterrupt, H.
Qed.

Lemma held_fold a i l s :
  held a i s -> held a i (fold_left (fun s' f => exec (call config (fn_body f)) s') l s).
Proof.
  revert s; induction l as [|g l IH]; intros s H; cbn; auto.
  apply IH, held_call, H.
Qed.

Lemma fold_dooms a l s :
  held a false s ->
  (exists g, In g l /\ fn_body g = HSetInterrupt a) ->
  held a true (fold_left (fun s' f => exec (call config (fn_body f)) s') l s).
Proof.
  revert s; induction l as [|g l IH]; intros s H (g0 & Hin & Hg0); cbn.
  - destruct Hin.
  - destruct Hin as [->|Hin].
    + apply held_fold. rewrite Hg0. cbn [call]. apply setInterrupt_dooms, H.
    + apply IH; eauto. apply held_call, H.
Qed.

(** An event emitted while a call of [assembleBlock] is on its way to line
    237 sets its [interrupt]. *)
Lemma emit_dooms a f s :
  Inv s -> nth_error (frames s) a = Some f -> beforeSubmit (pc f) = true ->
  held a true (exec (emit config) s).
Proof.
  intros I Hf Hp. unfold emit, exec. cbn [snd].
  apply fold_dooms.
  - split; [exists f; split; auto; discriminate|].
    destruct (handled a (effects s)) eqn:E; auto.
    destruct (inv_handled _ I a E) as (f0 & Hf0 & Hp0). congruence.
  - apply (inv_listening _ I). apply nth_error_Some. congruence.
Qed.

Lemma held_iterate a b f0 f s :
  held a true s -> nth_error (frames s) b = Some f0 ->
  (interrupt f0 = true -> interrupt f = true) ->
  held a true (exec (iterate b f) s).
Proof.
  intros H Hf Hi. unfold iterate. monad.
  destruct ((index f <? length (txs f))%nat && negb (blockFull f) && negb (interrupt f));
    [|destruct (interrupt f) eqn:E]; cbn; held_step H Hf;
    rewrite ?E; auto.
Qed.

Lemma held_openBlockBuilder a b f0 f s :
  held a true s -> nth_error (frames s) b = Some f0 ->
  (interrupt f0 = true -> interrupt f = true) ->
  held a true (exec (openBlockBuilder config b f) s).
Proof.
  intros H Hf Hi. unfold openBlockBuilder. monad. cbn. held_step H Hf.
Qed.

Lemma held_catchAddTransaction a b m f0 f s :
  held a true s -> nth_error (frames s) b = Some f0 ->
  (interrupt f0 = true -> interrupt f = true) ->
  held a true (exec (catchAddTransaction b m f) s).
Proof.
  intros H Hf Hi. unfold catchAddTransaction.
  destruct (String.eqb m gasLimitExceeded).
  - destruct (gasUsed f >? gasLimit f - 21000).
    + destruct (toNumber _).
      * rewrite exec_bind. eapply held_iterate; eauto.
      * monad; cbn. held_step H Hf.
    + eapply held_iterate; eauto.
  - rewrite exec_bind. eapply held_iterate; eauto.
Qed.

Lemma held_resume a b r s : held a true s -> held a true (exec (resume config b r) s).
Proof.
  intros H. unfold resume. rewrite exec_bind.
  change (exec get s) with s. change (fst (get s)) with s.
  destruct (nth_error (frames s) b) as [f|] eqn:Hf; [|exact H].
  destruct (pc f), r; try exact H;
    try solve [monad; cbn; held_step H Hf].
  - destruct (isPoA config).
    + monad; cbn; held_step H Hf.
    + eapply held_openBlockBuilder; eauto.
  - destruct (printable (baseFeePerGas f)).
    + rewrite exec_bind. eapply held_iterate; eauto.
    + monad; cbn; held_step H Hf.
  - eapply held_iterate; eauto.
  - eapply held_catchAddTransaction; eauto.
  - destruct (interrupt f) eqn:E; monad; cbn; [held_step H Hf|].
    eapply held_putFrame; [exact H|exact Hf|cbn; reflexivity|cbn; auto|].
    cbn. unfold handled at 1. cbn.
    destruct (Nat.eqb_spec a b) as [->|Hne]; auto.
    destruct H as [(f1 & Hf1 & Hi) _]. rewrite Hf in Hf1. injection Hf1 as <-.
    rewrite Hi in E by auto. discriminate.
  - destruct (block f); monad; cbn; held_step H Hf.
Qed.

Lemma held_fire a t s : held a true s -> held a true (exec (fire config t) s).
Proof.
  intros H. unfold fire. rewrite exec_bind.
  change (exec get s) with s. change (fst (get s)) with s.
  destruct (find _ _); [|exact H].
  rewrite exec_bind. apply held_call.
  eapply held_calm; [|exact H]. apply quiet_calm, quiet_clearTimeout.
Qed.

Lemma held_step a s i : held a true s -> held a true (step config s i).
Proof.
  intros H. destruct i; cbn [step].
  - eapply held_calm; [|exact H]. split; auto.
  - eapply held_calm; [|exact H]. apply calm_start.
  - eapply held_calm; [|exact H]. apply calm_stop.
  - apply held_assembleBlock, H.
  - eapply held_calm; [|exact H]. apply quiet_calm, quiet_queueNextAssembly.
  - apply held_fold, H.
  - apply held_fire, H.
  - eapply held_calm; [|exact H]. apply quiet_calm, quiet_queueNextAssembly_resume.
  - eapply held_calm; [|exact H]. apply quiet_calm, quiet_queueNextAssembly_reject.
  - apply held_resume, H.
Qed.

Lemma held_run a ins s : held a true s -> held a true (run config s ins).
Proof.
  revert s; induction ins as [|i ins IH]; intros s H; cbn; auto.
  apply IH, held_step, H.
Qed.

Lemma iterate_interrupted a f0 f s :
  nth_error (frames s) a = Some f0 -> interrupt f = true ->
  nth_error (frames (exec (iterate a f) s)) a = Some (set_pc Returned f).
Proof.
  intros Hf Hi. unfold iterate. rewrite Hi, andb_false_r. monad. cbn.
  eapply nth_error_update_eq; eauto.
Qed.

(** Every answer to an interrupted call of [assembleBlock] brings it closer
    to its return. *)
Lemma interrupted_call_returns (s : State) (a : nat) (f : Frame) (r : Response) :
  nth_error (frames s) a = Some f -> interrupt f = true ->
  answers (pc f) r = true ->
  exists f', nth_error (frames (step config s (Resume a r))) a = Some f' /\
             (remaining (pc f') < remaining (pc f))%nat.
Proof.
  intros Hf Hi Ha. cbn [step]. unfold resume. rewrite exec_bind.
  change (exec get s) with s. change (fst (get s)) with s.
  rewrite Hf.
  destruct (pc f) eqn:Hp, r; try discriminate Ha; cbn [remaining];
    try solve [ monad; cbn; rewrite (nth_error_update_eq _ _ _ _ Hf);
                eexists; split; [reflexivity|cbn; lia] ].
  - destruct (isPoA config); monad; cbn; rewrite (nth_error_update_eq _ _ _ _ Hf);
      eexists; (split; [reflexivity|cbn; lia]).
  - destruct (printable _).
    + rewrite exec_bind. erewrite iterate_interrupted by eauto.
      eexists; split; [reflexivity|cbn; lia].
    + monad; cbn; rewrite (nth_error_update_eq _ _ _ _ Hf).
      eexists; split; [reflexivity|cbn; lia].
  - erewrite iterate_interrupted by eauto.
    eexists; split; [reflexivity|cbn; lia].
  - unfold catchAddTransaction.
    destruct (String.eqb _ _); [destruct (_ >? _); [destruct (toNumber _)|]|];
      rewrite ?exec_bind;
      first [ erewrite iterate_interrupted by eauto;
              eexists; split; [reflexivity|cbn; lia]
            | monad; cbn; rewrite (nth_error_update_eq _ _ _ _ Hf);
              eexists; split; [reflexivity|cbn; lia] ].
  - rewrite Hi. monad; cbn; rewrite (nth_error_update_eq _ _ _ _ Hf).
    eexists; split; [reflexivity|cbn; lia].
  - destruct (block f); monad; cbn; rewrite (nth_error_update_eq _ _ _ _ Hf);
      eexists; (split; [reflexivity|cbn; lia]).
Qed.
(** C1.  In every state the miner can reach, when [CHAIN_UPDATED] is emitted
    while the call [a] of [assembleBlock] is anywhere before line 237, that
    call never calls [handleNewBlock], whatever happens afterwards, and
    every promise it still awaits brings it closer to its return when it
    settles. *)
Theorem chain_updated_cancels_assembly (s : State) (a : nat) (f : Frame) (ins : list Input) :
  reachable config s ->
  nth_error (frames s) a = Some f ->
  beforeSubmit (pc f) = true ->
  let s' := run config (step config s EmitChainUpdated) ins in
  handled a (effects s') = false /\
  forall f' r,
    nth_error (frames s') a = Some f' -> answers (pc f') r = true ->
    exists f'',
      nth_error (frames (step config s' (Resume a r))) a = Some f'' /\
      (remaining (pc f'') < remaining (pc f'))%nat.
Proof.
  intros R Hf Hp s'.
  assert (H : held a true s').
  { apply (held_run a ins). cbn [step].
    eapply emit_dooms; eauto. apply Inv_reachable, R. }
  split; [apply H|].
  intros f' r Hf' Ha.
  destruct H as [(f0 & Hf0 & Hi) _].
  rewrite Hf' in Hf0. injection Hf0 as <-.
  apply interrupted_call_returns; auto.
Qed.

End Invariants.

(** ** The pending timeouts *)

Lemma still_refl s : still s s.
Proof. unfold still; auto. Qed.

Lemma still_trans s1 s2 s3 : still s1 s2 -> still s2 s3 -> still s1 s3.
Proof. unfold still. intros (A & B & C) (D & E & F). repeat split; congruence. Qed.

Lemma OneTimer_still s s' : still s s' -> OneTimer s -> OneTimer s'.
Proof.
  intros (A & B & C) (T1 & T2 & T3). unfold OneTimer.
  rewrite A, B, C. auto.
Qed.

Section Timers.

Variable config : Config.

Lemma still_iterate a f s : still s (exec (iterate a f) s).
Proof.
  unfold iterate. monad.
  destruct (_ && _); [|destruct (interrupt f)]; cbn; (unfold still; cbn; auto).
Qed.

Lemma still_catchAddTransaction a m f s : still s (exec (catchAddTransaction a m f) s).
Proof.
  unfold catchAddTransaction.
  destruct (String.eqb _ _); [destruct (_ >? _); [destruct (toNumber _)|]|];
    rewrite ?exec_bind;
    try (eapply still_trans; [|apply still_iterate]); (unfold still; cbn; auto).
Qed.

Lemma still_resume a r s : still s (exec (resume config a r) s).
Proof.
  unfold resume. rewrite exec_bind.
  change (exec get s) with s. change (fst (get s)) with s.
  destruct (nth_error (frames s) a) as [f|]; [|(unfold still; cbn; auto)].
  destruct (pc f), r; try (unfold still; cbn; auto).
  - destruct (isPoA config); (unfold still; cbn; auto).
  - destruct (printable _); rewrite ?exec_bind;
      try (eapply still_trans; [|apply still_iterate]); (unfold still; cbn; auto).
  - apply still_iterate.
  - apply still_catchAddTransaction.
  - destruct (interrupt f); (unfold still; cbn; auto).
  - destruct (block f); (unfold still; cbn; auto).
Qed.

Lemma still_setInterrupt a s : still s (exec (setInterrupt a) s).
Proof.
  unfold setInterrupt. monad. destruct (nth_error _ _); (unfold still; cbn; auto).
Qed.

Lemma still_assembleBlock s : still s (exec (assembleBlock config) s).
Proof.
  unfold assembleBlock. monad. destruct (assembling s); [(unfold still; cbn; auto)|].
  cbn. destruct (_ && _); cbn.
  - destruct (nth_error _ _); (unfold still; cbn; auto).
  - destruct (_ =? _); (unfold still; cbn; auto).
Qed.

(** From here on the chain is not a proof-of-authority chain:
    [queueNextAssembly] has no [await]. *)
Hypothesis noAwait : isPoA config = false.

Lemma OneTimer_clear s :
  OneTimer s ->
  timers (exec (match nextAssemblyTimeoutId s with
                | Some t => clearTimeout t
                | None => ret tt
                end) s) = [].
Proof.
  intros (T1 & T2 & T3).
  destruct (timers s) as [|t [|t' l]] eqn:E.
  - destruct (nextAssemblyTimeoutId s); cbn; rewrite E; reflexivity.
  - rewrite (T2 t) by (left; reflexivity).
    cbn. rewrite E. cbn. rewrite Nat.eqb_refl. reflexivity.
  - cbn in T1. lia.
Qed.

Lemma OneTimer_queueNextAssembly t s :
  OneTimer s -> OneTimer (exec (queueNextAssembly config t) s).
Proof.
  intros T. pose proof (OneTimer_clear s T) as C. destruct T as (T1 & T2 & T3).
  unfold queueNextAssembly, schedule. rewrite noAwait. monad.
  destruct (nextAssemblyTimeoutId s); cbn in *; rewrite C; unfold OneTimer; cbn;
    (split; [lia|split; [intros x [<-|[]]; reflexivity|exact T3]]).
Qed.

Lemma OneTimer_chainUpdated s : OneTimer s -> OneTimer (exec (chainUpdated config) s).
Proof.
  intros T. unfold chainUpdated. rewrite exec_bind.
  change (exec get s) with s. change (fst (get s)) with s.
  destruct (_ <? _); [|exact T].
  destruct (toNumber _); [destruct (toNumber _)|]; try exact T.
  rewrite exec_bind. apply OneTimer_queueNextAssembly.
  apply OneTimer_still with (2 := T). unfold still; cbn; auto.
Qed.

Lemma OneTimer_call h s : OneTimer s -> OneTimer (exec (call config h) s).
Proof.
  destruct h; cbn [call]; intros T.
  - apply OneTimer_chainUpdated, T.
  - apply OneTimer_still with (2 := T), still_assembleBlock.
  - apply OneTimer_still with (2 := T), still_setInterrupt.
Qed.

Lemma OneTimer_fold l s :
  OneTimer s -> OneTimer (fold_left (fun s' f => exec (call config (fn_body f)) s') l s).
Proof.
  revert s; induction l as [|g l IH]; intros s T; cbn; auto.
  apply IH, OneTimer_call, T.
Qed.

Lemma OneTimer_filter p s :
  OneTimer s -> OneTimer (set_timers (filter p (timers s)) s).
Proof.
  intros (T1 & T2 & T3). unfold OneTimer; cbn. repeat split; auto.
  - pose proof (filter_length_le p (timers s)). lia.
  - intros t Ht. apply filter_In in Ht as [Ht _]. auto.
Qed.

Lemma OneTimer_step s i : OneTimer s -> OneTimer (step config s i).
Proof.
  intros T. destruct i; cbn [step].
  - exact T.
  - unfold start. rewrite exec_bind.
    change (exec get s) with s. change (fst (get s)) with s.
    destruct (_ || _); [exact T|]. rewrite !exec_bind.
    match goal with |- OneTimer (exec _ (exec _ (exec _ ?s1))) =>
      apply OneTimer_still with (s := exec (queueNextAssembly config None) s1);
        [unfold still; cbn -[queueNextAssembly]; auto|apply OneTimer_queueNextAssembly] end.
    exact T.
  - unfold stop. monad. destruct (negb (running s)); [exact T|].
    destruct (nextAssemblyTimeoutId s) eqn:E; cbn.
    + apply (OneTimer_filter (fun x => negb (Nat.eqb (timer_id x) n)) s) in T.
      destruct T as (T1 & T2 & T3).
      unfold OneTimer; cbn in *. repeat split; auto.
    + exact T.
  - apply OneTimer_still with (2 := T), still_assembleBlock.
  - apply OneTimer_queueNextAssembly, T.
  - apply OneTimer_fold, T.
  - unfold fire. rewrite exec_bind.
    change (exec get s) with s. change (fst (get s)) with s.
    destruct (find _ _); [|exact T]. rewrite exec_bind.
    apply OneTimer_call. apply (OneTimer_filter (fun x => negb (Nat.eqb (timer_id x) t)) s), T.
  - unfold queueNextAssembly_resume. monad.
    destruct T as (T1 & T2 & T3). rewrite T3.
    destruct q; cbn; unfold OneTimer; auto.
  - unfold queueNextAssembly_reject. monad.
    destruct T as (T1 & T2 & T3). rewrite T3.
    destruct q; cbn; unfold OneTimer; auto.
  - apply OneTimer_still with (2 := T), still_resume.
Qed.

(** Without the [await] of [queueNextAssembly], at most one timeout is ever
    pending. *)
Lemma single_timer_without_await s :
  reachable config s -> (length (timers s) <= 1)%nat.
Proof.
  intros (w & ins & ->).
  assert (T : OneTimer (init w)) by (unfold OneTimer; cbn; auto; repeat split; auto; intros t []).
  generalize dependent (init w). induction ins as [|i ins IH]; intros s T; cbn.
  - apply T.
  - apply IH, OneTimer_step, T.
Qed.

End Timers.

(** ** The claims about the miner *)

Section Claims.
Variable config : Config.

(** C2, amended.  While [assembling] is set, a call of [assembleBlock]
    returns at once and leaves every object as it was: no listener, no
    frame, no effect. *)
Theorem assembleBlock_reentrant (s : State) :
  assembling s = true -> assembleBlock config s = (tt, s).
Proof.
  intros H. unfold assembleBlock, bind, get. rewrite H. reflexivity.
Qed.

(** C10, amended.  [start()] returns [false] and changes nothing when
    [config.mine] is unset or the miner is running.  Otherwise it returns
    [true], sets [running], registers a new [chainUpdated] function object
    and calls [queueNextAssembly()].  On a chain without proof of authority
    the timeout of [period] ms that runs [assembleBlock] is pending when
    [start] returns.  On a proof-of-authority chain nothing is scheduled
    when [start] returns: the remembered timeout is cleared, the call is
    suspended at its [await], and the timeout is set when
    [cliqueSignerInTurn] resolves, after [period] ms for a signer in turn
    and after [period] ms plus the jitter for one that is not. *)
Theorem start_spec (s : State) :
  (negb (mine config) || running s = true -> start config s = (false, s)) /\
  (negb (mine config) || running s = false ->
   let s' := exec (start config) s in
   let cleared :=
     match nextAssemblyTimeoutId s with
     | Some t => filter (fun x => negb (Nat.eqb (timer_id x) t)) (timers s)
     | None => timers s
     end in
   fst (start config s) = true /\
   running s' = true /\
   listeners s' = listeners s ++ [{| fn_id := functions s; fn_body := HChainUpdated |}] /\
   (isPoA config = false ->
    nextAssemblyTimeoutId s' = Some (timeouts s) /\
    exists cb,
      timers s' =
        cleared ++ [{| timer_id := timeouts s; callback := cb; delay := period config |}] /\
      fn_body cb = HAssembleBlock) /\
   (isPoA config = true ->
    queueing s' = queueing s ++ [{| q_timeout := period config; q_waiting := true |}] /\
    timers s' = cleared /\
    nextAssemblyTimeoutId s' = nextAssemblyTimeoutId s /\
    forall (inTurn : bool) (jitter : Z),
      let s'' := step config s' (SignerInTurn (length (queueing s)) inTurn jitter) in
      nextAssemblyTimeoutId s'' = Some (timeouts s') /\
      exists cb,
        timers s'' =
          cleared ++
          [{| timer_id := timeouts s'; callback := cb;
              delay := if inTurn then period config else period config + jitter |}] /\
        fn_body cb = HAssembleBlock)).
Proof.
  split; intros H.
  - unfold start, bind, get. rewrite H. reflexivity.
  - unfold start, exec, bind, get. rewrite H.
    unfold queueNextAssembly, schedule. monad. cbn.
    destruct (isPoA config) eqn:P, (nextAssemblyTimeoutId s) eqn:N; cbn;
      repeat split; try discriminate; intros; eauto;
      unfold queueNextAssembly_resume, schedule; monad; cbn;
      rewrite nth_error_app2 by lia; rewrite Nat.sub_diag; cbn; eauto.
Qed.

Lemma iterate_frame a f0 f s :
  nth_error (frames s) a = Some f0 ->
  exists p,
    nth_error (frames (exec (iterate a f) s)) a = Some (set_pc p f) /\
    (p = AwaitAddTransaction \/ p = AwaitBuild \/ p = Returned) /\
    (p = AwaitAddTransaction <->
     (index f < length (txs f))%nat /\ blockFull f = false /\ interrupt f = false) /\
    (p = AwaitAddTransaction ->
     effects (exec (iterate a f) s) =
       CallAddTransaction a (nth (index f) (txs f) dummyTx) :: effects s).
Proof.
  intros Hf. unfold iterate. monad.
  destruct (Nat.ltb_spec (index f) (length (txs f))) as [L|L];
    destruct (blockFull f) eqn:B; destruct (interrupt f) eqn:I; cbn;
    rewrite (nth_error_update_eq _ _ _ _ Hf);
    eexists; (split; [reflexivity|]);
    (split; [tauto|]); (split; [|try discriminate; auto]);
    split; try discriminate; try tauto; try (intros (? & ? & ?); try discriminate; lia).
Qed.

(** C3.  When [addTransaction] throws in the loop of the call [a]: with the
    gas-limit message and less than 21000 gas left, [blockFull] is set and
    no further transaction is tried; with any other error (another message,
    or 21000 gas or more left) [blockFull] is unchanged, [index] moves on by
    one, and the next transaction is handed to [addTransaction] when there
    is one and no interrupt has arrived. *)
Theorem addTransaction_errors (s : State) (a : nat) (f : Frame) (message : string) (g : Z) :
  nth_error (frames s) a = Some f ->
  pc f = AwaitAddTransaction ->
  let s' := step config s (Resume a (Failed message g)) in
  exists f',
    nth_error (frames s') a = Some f' /\
    (message = gasLimitExceeded -> gasLimit f - g < 21000 ->
     blockFull f' = true /\ (pc f' = AwaitBuild \/ pc f' = Returned)) /\
    (message <> gasLimitExceeded \/ 21000 <= gasLimit f - g ->
     blockFull f' = blockFull f /\ index f' = S (index f) /\
     ((S (index f) < length (txs f))%nat -> blockFull f = false -> interrupt f = false ->
      pc f' = AwaitAddTransaction /\
      hd_error (effects s') =
        Some (CallAddTransaction a (nth (S (index f)) (txs f) dummyTx)))).
Proof.
  intros Hf Hpc. cbn [step]. unfold resume. rewrite exec_bind.
  change (exec get s) with s. change (fst (get s)) with s.
  rewrite Hf, Hpc. unfold catchAddTransaction.
  destruct (String.eqb_spec message gasLimitExceeded) as [E|E].
  - frame_fields.
    destruct (Z.gtb_spec g (gasLimit f - 21000)) as [G|G].
    + destruct (toNumber (gasLimit f - g)) as [left|].
      * rewrite exec_bind.
        match goal with |- context [exec (iterate a ?f1) ?s1] =>
          destruct (iterate_frame a f f1 s1 Hf) as (p & Hp & Hcases & Hiff & _) end.
        frame_fields.
        eexists. split; [exact Hp|]. split.
        -- intros _ _. frame_fields. split; auto.
           destruct Hcases as [->|[->| ->]]; auto.
           destruct (proj1 Hiff eq_refl) as (_ & Hb & _). discriminate.
        -- intros [?|?]; [contradiction|lia].
      * monad. cbn. rewrite (nth_error_update_eq _ _ _ _ Hf).
        eexists. split; [reflexivity|]. split.
        -- intros _ _. cbn. auto.
        -- intros [?|?]; [contradiction|lia].
    + match goal with |- context [exec (iterate a ?f1) ?s1] =>
        destruct (iterate_frame a f f1 s1 Hf) as (p & Hp & Hcases & Hiff & Heff) end.
      frame_fields.
      eexists. split; [exact Hp|]. split.
      * intros _ ?. lia.
      * intros _. frame_fields. repeat split; auto.
        -- apply Hiff; auto.
        -- rewrite Heff; [reflexivity|]. apply Hiff; auto.
  - rewrite exec_bind.
    match goal with |- context [exec (iterate a ?f1) ?s1] =>
      destruct (iterate_frame a f f1 s1 Hf) as (p & Hp & Hcases & Hiff & Heff) end.
    frame_fields.
    eexists. split; [exact Hp|]. split.
    + intros ?. contradiction.
    + intros _. frame_fields. repeat split; auto.
      * apply Hiff; auto.
      * rewrite Heff; [reflexivity|]. apply Hiff; auto.
Qed.


Lemma openBlockBuilder_effects a f s :
  effects (exec (openBlockBuilder config a f) s) =
  CallBuildBlock a (latestBlock (world s)) (headerData config (world s) f) :: effects s.
Proof. reflexivity. Qed.

(** C4.  The header data a reachable miner hands to [buildBlock]: its
    number is the parent's plus one; at the london block the base fee is
    [initialBaseFee] and the gas limit twice the parent's; otherwise the
    base fee is [parent.calcNextBaseFee()] when EIP-1559 is active and absent
    when it is not, with the parent's gas limit. *)
Theorem london_header (s : State) (a : nat) (f : Frame) (r : Response) :
  reachable config s ->
  nth_error (frames s) a = Some f ->
  opensBuilder config f r = true ->
  let parent := parentBlockHeader f in
  let london := londonHardforkBlock (chainCommon config) in
  exists hd,
    effects (step config s (Resume a r)) =
      CallBuildBlock a (latestBlock (world s)) hd :: effects s /\
    hd_number hd = hdr_number parent + 1 /\
    (london = Some (hd_number hd) ->
     hd_baseFeePerGas hd = Some (initialBaseFee (chainCommon config)) /\
     hd_gasLimit hd = 2 * hdr_gasLimit parent) /\
    (london <> Some (hd_number hd) -> isActivatedEIP1559 (world s) = true ->
     hd_baseFeePerGas hd = Some (calcNextBaseFee parent) /\
     hd_gasLimit hd = hdr_gasLimit parent) /\
    (london <> Some (hd_number hd) -> isActivatedEIP1559 (world s) = false ->
     hd_baseFeePerGas hd = None /\
     hd_gasLimit hd = hdr_gasLimit parent).
Proof.
  intros R Hf Ho parent london.
  assert (Hpre : beforeBuilder (pc f) = true).
  { unfold opensBuilder in Ho. destruct (pc f); try discriminate; reflexivity. }
  destruct (inv_parent _ (Inv_reachable config s R) a f Hf Hpre) as [Hg Hn].
  assert (Hhd : forall d,
    let hd := headerData config (world s) (set_difficulty d f) in
    hd_number hd = hdr_number parent + 1 /\
    (london = Some (hd_number hd) ->
     hd_baseFeePerGas hd = Some (initialBaseFee (chainCommon config)) /\
     hd_gasLimit hd = 2 * hdr_gasLimit parent) /\
    (london <> Some (hd_number hd) -> isActivatedEIP1559 (world s) = true ->
     hd_baseFeePerGas hd = Some (calcNextBaseFee parent) /\
     hd_gasLimit hd = hdr_gasLimit parent) /\
    (london <> Some (hd_number hd) -> isActivatedEIP1559 (world s) = false ->
     hd_baseFeePerGas hd = None /\
     hd_gasLimit hd = hdr_gasLimit parent)).
  { intros d. unfold headerData, eip1559. cbn -[Z.mul]. fold london parent.
    rewrite Hn, Hg. fold parent. split; [reflexivity|].
    destruct london as [b|].
    - destruct (Z.eqb_spec (hdr_number parent + 1) b) as [E|E].
      + cbn -[Z.mul]. repeat split; try lia; try congruence.
      + destruct (isActivatedEIP1559 (world s)); cbn -[Z.mul]; repeat split;
          intros; try congruence.
    - destruct (isActivatedEIP1559 (world s)); cbn -[Z.mul]; repeat split;
        intros; try congruence. }
  cbn [step]. unfold resume. rewrite exec_bind.
  change (exec get s) with s. change (fst (get s)) with s.
  rewrite Hf. unfold opensBuilder in Ho.
  destruct (pc f), r; try discriminate.
  - apply negb_true_iff in Ho. rewrite Ho.
    rewrite openBlockBuilder_effects.
    eexists. split; [reflexivity|].
    replace f with (set_difficulty (difficulty f) f) by (destruct f; reflexivity).
    apply Hhd.
  - rewrite openBlockBuilder_effects.
    eexists. split; [reflexivity|]. apply Hhd.
Qed.

End Claims.

(** ** The claims on the example chain *)

Lemma assemblingState_reachable : reachable (exampleConfig ProofOfWork) assemblingState.
Proof. exists (exampleWorld 1). eexists. reflexivity. Qed.

(** Left alone, the assembly of the example does call [handleNewBlock]. *)
Example assembly_submits_undisturbed :
  handled 0 (effects (run (exampleConfig ProofOfWork) assemblingState restOfAssembly)) = true.
Proof. vm_compute. reflexivity. Qed.

Lemma chain_updated_cancels_assembly_witness :
  nth_error (frames assemblingState) 0 = Some assemblingFrame /\
  beforeSubmit (pc assemblingFrame) = true /\
  handled 0
    (effects
       (run (exampleConfig ProofOfWork)
          (step (exampleConfig ProofOfWork) assemblingState EmitChainUpdated)
          restOfAssembly)) = false /\
  map pc
    (frames
       (run (exampleConfig ProofOfWork)
          (step (exampleConfig ProofOfWork) assemblingState EmitChainUpdated)
          restOfAssembly)) = [Returned].
Proof.
  split; [reflexivity|]. split; [reflexivity|]. split; [|reflexivity].
  apply (chain_updated_cancels_assembly (exampleConfig ProofOfWork)
           assemblingState 0 assemblingFrame restOfAssembly).
  - exact assemblingState_reachable.
  - reflexivity.
  - reflexivity.
Defined.

Lemma assembleBlock_reentrant_witness :
  assembling assemblingState = true /\
  assembleBlock (exampleConfig ProofOfWork) assemblingState = (tt, assemblingState) /\
  step (exampleConfig ProofOfWork) assemblingState AssembleBlock = assemblingState.
Proof.
  split; [reflexivity|].
  assert (E := assembleBlock_reentrant (exampleConfig ProofOfWork) assemblingState eq_refl).
  split; [exact E|].
  cbn [step]. unfold exec. rewrite E. reflexivity.
Defined.

(** C2 as stated fails: the flag does not bound the calls in flight.  An
    event unsets it while the interrupted call is still suspended, and line
    234 unsets it when an interrupted call returns from [build()], also
    when another call has set it since.  Here two calls are on their way
    with the flag set, first one of them interrupted, then neither, and both
    go on to call [handleNewBlock]. *)
Lemma two_assemblies_in_flight :
  let config := exampleConfig ProofOfWork in
  let s1 := run config (init (exampleWorld 1))
              [Start; Fire 0; EmitChainUpdated; Fire 1] in
  let s2 := run config (init (exampleWorld 1)) overlappingAssemblies in
  (assembling s1, map pc (frames s1), map interrupt (frames s1)) =
    (true, [AwaitStateRoot; AwaitStateRoot], [true; false]) /\
  (assembling s2, map pc (frames s2), map interrupt (frames s2)) =
    (true, [Returned; AwaitStateRoot; AwaitStateRoot], [true; false; false]) /\
  handled 1 (effects (run config s2 bothSubmit)) = true /\
  handled 2 (effects (run config s2 bothSubmit)) = true.
Proof. vm_compute. repeat split. Qed.

Lemma addTransaction_errors_witness :
  nth_error (frames assemblingState) 0 = Some assemblingFrame /\
  pc assemblingFrame = AwaitAddTransaction /\
  (exists f',
     nth_error
       (frames (step (exampleConfig ProofOfWork) assemblingState
                  (Resume 0 (Failed gasLimitExceeded 90000)))) 0 = Some f' /\
     blockFull f' = true /\ (pc f' = AwaitBuild \/ pc f' = Returned)) /\
  (exists f',
     nth_error
       (frames (step (exampleConfig ProofOfWork) assemblingState
                  (Resume 0 (Failed "nonce too low" 0)))) 0 = Some f' /\
     blockFull f' = false /\ index f' = 1%nat /\ pc f' = AwaitAddTransaction).
Proof.
  split; [reflexivity|]. split; [reflexivity|]. split.
  - destruct (addTransaction_errors (exampleConfig ProofOfWork) assemblingState 0
                assemblingFrame gasLimitExceeded 90000 eq_refl eq_refl)
      as (f' & Hf' & Hfull & _).
    exists f'. split; [exact Hf'|]. apply Hfull; [reflexivity|reflexivity].
  - destruct (addTransaction_errors (exampleConfig ProofOfWork) assemblingState 0
                assemblingFrame "nonce too low" 0 eq_refl eq_refl)
      as (f' & Hf' & _ & Hskip).
    exists f'. split; [exact Hf'|].
    destruct Hskip as (Hb & Hi & Hnext); [left; discriminate|].
    split; [exact Hb|]. split; [exact Hi|].
    apply Hnext; [cbn; lia|reflexivity|reflexivity].
Defined.

Lemma london_header_witness :
  nth_error (frames londonState) 0 = Some londonFrame /\
  opensBuilder (exampleConfig ProofOfWork) londonFrame Resolved = true /\
  exists hd,
    effects (step (exampleConfig ProofOfWork) londonState (Resume 0 Resolved)) =
      CallBuildBlock 0 (latestBlock (world londonState)) hd :: effects londonState /\
    hd_number hd = 3 /\
    hd_baseFeePerGas hd = Some 1000000000 /\
    hd_gasLimit hd = 200000.
Proof.
  split; [reflexivity|]. split; [reflexivity|].
  destruct (london_header (exampleConfig ProofOfWork) londonState 0 londonFrame Resolved)
    as (hd & He & Hn & Hl & _).
  - exists (exampleWorld 2). eexists. reflexivity.
  - reflexivity.
  - reflexivity.
  - exists hd. split; [exact He|]. split; [exact Hn|].
    apply Hl. rewrite Hn. reflexivity.
Defined.

Lemma start_spec_witness :
  start (exampleConfig ProofOfWork) assemblingState = (false, assemblingState) /\
  fst (start (exampleConfig ProofOfWork) (init (exampleWorld 1))) = true /\
  running (exec (start (exampleConfig ProofOfWork)) (init (exampleWorld 1))) = true /\
  listeners (exec (start (exampleConfig ProofOfWork)) (init (exampleWorld 1))) =
    [{| fn_id := 0; fn_body := HChainUpdated |}] /\
  map delay (timers (exec (start (exampleConfig ProofOfWork)) (init (exampleWorld 1)))) =
    [1000] /\
  timers (exec (start (exampleConfig ProofOfAuthority)) (init (exampleWorld 1))) = [] /\
  map delay
    (timers
       (run (exampleConfig ProofOfAuthority) (init (exampleWorld 1))
          [Start; SignerInTurn 0 false 250])) = [1250].
Proof.
  split.
  - apply (proj1 (start_spec (exampleConfig ProofOfWork) assemblingState)). reflexivity.
  - destruct (proj2 (start_spec (exampleConfig ProofOfWork) (init (exampleWorld 1))) eq_refl)
      as (H1 & H2 & H3 & H4 & _).
    destruct (proj2 (start_spec (exampleConfig ProofOfAuthority) (init (exampleWorld 1)))
                eq_refl) as (_ & _ & _ & _ & H5).
    split; [exact H1|]. split; [exact H2|]. split; [exact H3|]. split.
    + destruct (H4 eq_refl) as (_ & cb & E & _). rewrite E. reflexivity.
    + destruct (H5 eq_refl) as (_ & T & _ & R). split; [exact T|].
      destruct (R false 250) as (_ & cb & E & _).
      change (run (exampleConfig ProofOfAuthority) (init (exampleWorld 1))
                [Start; SignerInTurn 0 false 250])
        with (step (exampleConfig ProofOfAuthority)
                (exec (start (exampleConfig ProofOfAuthority)) (init (exampleWorld 1)))
                (SignerInTurn 0 false 250)).
      change (length (queueing (init (exampleWorld 1)))) with 0%nat in E.
      rewrite E. reflexivity.
Defined.

(** C10 as stated fails: on a proof-of-authority chain [start()] returns
    [true] with [running] set and no assembly scheduled, and when
    [cliqueSignerInTurn] then throws none is scheduled afterwards either. *)
Lemma start_schedules_nothing_under_proof_of_authority :
  let config := exampleConfig ProofOfAuthority in
  let s := init (exampleWorld 1) in
  negb (mine config) || running s = false /\
  fst (start config s) = true /\
  running (exec (start config) s) = true /\
  timers (exec (start config) s) = [] /\
  nextAssemblyTimeoutId (exec (start config) s) = None /\
  running (run config s [Start; SignerUnknown 0]) = true /\
  timers (run config s [Start; SignerUnknown 0]) = [] /\
  nextAssemblyTimeoutId (run config s [Start; SignerUnknown 0]) = None.
Proof. vm_compute. repeat split. Qed.

(** C6 fails on the code.  [stop()] clears the remembered timeout and
    unsets [running], but the function object it hands to [removeListener]
    is a new one, so the [chainUpdated] listener of [start()] stays
    registered: the next [CHAIN_UPDATED] sets a timeout again, and when it
    expires the stopped miner assembles a block. *)
Theorem stop_leaves_chainUpdated_subscribed :
  let config := exampleConfig ProofOfWork in
  let started := step config (init (exampleWorld 1)) Start in
  let stopped := step config started Stop in
  listeners started = [{| fn_id := 0; fn_body := HChainUpdated |}] /\
  map timer_id (timers started) = [0%nat] /\
  running stopped = false /\
  timers stopped = [] /\
  listeners stopped = [{| fn_id := 0; fn_body := HChainUpdated |}] /\
  map timer_id (timers (step config stopped EmitChainUpdated)) = [1%nat] /\
  map pc (frames (run config stopped [EmitChainUpdated; Fire 1])) = [AwaitStateRoot] /\
  assembling (run config stopped [EmitChainUpdated; Fire 1]) = true.
Proof. vm_compute. repeat split. Qed.

(** C9 fails on the code.  On a proof-of-authority chain two calls of
    [queueNextAssembly] that overlap at the [await] both clear before either
    sets: two timeouts are pending, the miner remembers the second only, and
    neither a further call nor [stop()] clears the first, which still
    starts an assembly. *)
Theorem overlapping_queueNextAssembly_leaves_two_timeouts :
  let config := exampleConfig ProofOfAuthority in
  let s := run config (init (exampleWorld 1))
             [Start; EmitChainUpdated; SignerInTurn 0 true 0; SignerInTurn 1 true 0] in
  map timer_id (timers s) = [0%nat; 1%nat] /\
  nextAssemblyTimeoutId s = Some 1%nat /\
  map timer_id (timers (step config s (QueueNextAssembly None))) = [0%nat] /\
  map timer_id (timers (step config s Stop)) = [0%nat] /\
  map pc (frames (run config s [Stop; Fire 0])) = [AwaitStateRoot].
Proof. vm_compute. repeat split. Qed.


(** ** What the calls of [assembleBlock] ask, and in which order *)

Lemma hush_refl s : hush s s.
Proof. split; auto. Qed.

Lemma hush_trans s1 s2 s3 : hush s1 s2 -> hush s2 s3 -> hush s1 s3.
Proof.
  intros [A1 A2] [B1 B2]. split; [congruence|].
  intros a. destruct (A2 a) as (? & ? & ?), (B2 a) as (? & ? & ?).
  repeat split; congruence.
Qed.

Lemma Trace_hush config s s' : hush s s' -> Trace config s -> Trace config s'.
Proof.
  intros [A1 A2] [T1 T2]. split.
  - intros a f. rewrite A1. intros Hf. specialize (T1 a f Hf).
    destruct (A2 a) as (E1 & E2 & E3).
    unfold traced, untouched in *. rewrite E1, E2, E3. exact T1.
  - intros a. rewrite A1. intros Ha. specialize (T2 a Ha).
    destruct (A2 a) as (E1 & E2 & E3).
    unfold untouched in *. rewrite E1, E2, E3. exact T2.
Qed.

Ltac hush_now := unfold hush; cbn; auto.

Section Traces.

Variable config : Config.

Lemma hush_queueNextAssembly t s : hush s (exec (queueNextAssembly config t) s).
Proof.
  unfold queueNextAssembly, schedule. monad.
  destruct (nextAssemblyTimeoutId s), (isPoA config); hush_now.
Qed.

Lemma hush_queueNextAssembly_resume q b j s :
  hush s (exec (queueNextAssembly_resume q b j) s).
Proof.
  unfold queueNextAssembly_resume, schedule. monad.
  destruct (nth_error (queueing s) q) as [[t [|]]|]; hush_now.
Qed.

Lemma hush_queueNextAssembly_reject q s :
  hush s (exec (queueNextAssembly_reject q) s).
Proof.
  unfold queueNextAssembly_reject. monad.
  destruct (nth_error (queueing s) q) as [[t [|]]|]; hush_now.
Qed.

Lemma hush_chainUpdated s : hush s (exec (chainUpdated config) s).
Proof.
  unfold chainUpdated. monad.
  destruct (_ <? _); [|apply hush_refl].
  destruct (toNumber _); [destruct (toNumber _)|]; cbn -[queueNextAssembly]; try apply hush_refl.
  match goal with |- hush _ (snd (queueNextAssembly _ ?t ?s')) =>
    apply hush_trans with s'; [|apply (hush_queueNextAssembly t s')] end.
  hush_now.
Qed.

Lemma hush_start s : hush s (exec (start config) s).
Proof.
  unfold start. rewrite exec_bind.
  change (exec get s) with s. change (fst (get s)) with s.
  destruct (negb (mine config) || running s); [apply hush_refl|].
  rewrite !exec_bind.
  match goal with |- hush _ (exec _ (exec _ (exec _ ?s1))) =>
    apply hush_trans with s1 end.
  - hush_now.
  - eapply hush_trans; [apply hush_queueNextAssembly|]. hush_now.
Qed.

Lemma hush_stop s : hush s (exec stop s).
Proof.
  unfold stop. monad.
  destruct (negb (running s)); [apply hush_refl|].
  destruct (nextAssemblyTimeoutId s); hush_now.
Qed.

(** A frame is replaced: the other calls keep what they asked. *)
Lemma Trace_putFrame s s' a f f' :
  Trace config s -> nth_error (frames s) a = Some f ->
  frames s' = update a f' (frames s) ->
  (forall b, b <> a ->
     attempted b (effects s') = attempted b (effects s) /\
     submitted b (effects s') = submitted b (effects s) /\
     removed b (effects s') = removed b (effects s)) ->
  traced config a f' (effects s') ->
  Trace config s'.
Proof.
  intros [T1 T2] Hf HU HO HS. split.
  - intros b f0. rewrite HU. destruct (Nat.eq_dec a b) as [<-|Hab].
    + rewrite (nth_error_update_eq _ _ _ _ Hf). intros [= <-]. exact HS.
    + rewrite nth_error_update_neq by auto. intros Hb.
      specialize (T1 b f0 Hb). destruct (HO b) as (E1 & E2 & E3); [congruence|].
      unfold traced, untouched in *. rewrite E1, E2, E3. exact T1.
  - intros b. rewrite HU, length_update. intros Hb.
    specialize (T2 b Hb). destruct (HO b) as (E1 & E2 & E3).
    { intros ->. apply nth_error_None in Hb. congruence. }
    unfold untouched in *. rewrite E1, E2, E3. exact T2.
Qed.

Lemma Trace_init w : Trace config (init w).
Proof.
  split; cbn.
  - intros [|a] f; discriminate.
  - intros a _. repeat split.
Qed.

Lemma firstn_S_nth {A : Type} (l : list A) (i : nat) (d : A) :
  (i < length l)%nat -> firstn i l ++ [nth i l d] = firstn (S i) l.
Proof.
  revert i; induction l as [|x l IH]; intros [|i] H; cbn in *; try lia; auto.
  f_equal. apply IH. lia.
Qed.

(** The other calls are not concerned by what the call [a] asks. *)
Ltac others :=
  let b := fresh "b" in
  let Hb := fresh "Hb" in
  intros b Hb; apply Nat.eqb_neq in Hb; cbn; rewrite ?Hb; auto.

Lemma Trace_setInterrupt a s : Trace config s -> Trace config (exec (setInterrupt a) s).
Proof.
  intros T. unfold setInterrupt. monad.
  destruct (nth_error (frames s) a) as [f|] eqn:Hf; cbn.
  - eapply Trace_putFrame with (f' := set_interrupt true f); eauto; cbn; auto.
    exact (trace_frames _ _ T a f Hf).
  - apply Trace_hush with (2 := T). hush_now.
Qed.

Lemma Trace_assembleBlock s : Trace config s -> Trace config (exec (assembleBlock config) s).
Proof.
  intros T. unfold assembleBlock. rewrite exec_bind.
  change (exec get s) with s. change (fst (get s)) with s.
  destruct (assembling s); [exact T|].
  set (fr := {| pc := AwaitStateRoot; interrupt := false;
                parentBlockHeader := latest (world s);
                number := hdr_number (latest (world s)) + 1;
                gasLimit := hdr_gasLimit (latest (world s)); difficulty := None;
                baseFeePerGas := None; txs := []; index := 0;
                blockFull := false; gasUsed := 0; block := None |}).
  assert (T0 : Trace config (set_frames (frames s ++ [fr]) s)).
  { destruct T as [T1 T2]. split; cbn.
    - intros a f Hf.
      destruct (Nat.lt_ge_cases a (length (frames s))) as [Hlt|Hge].
      + rewrite nth_error_app1 in Hf by auto. eauto.
      + rewrite nth_error_app2 in Hf by auto.
        destruct (a - length (frames s))%nat as [|[|k]]; cbn in Hf; try discriminate.
        injection Hf as <-. unfold traced. cbn. split; auto.
    - intros a. rewrite length_app. cbn. intros Ha. apply T2. lia. }
  rewrite !exec_bind. monad. cbn. fold fr.
  destruct (isPoA config && cliqueCheckRecentlySigned (world s) (hdr_number (latest (world s)) + 1)).
  - cbn. fold fr.
    destruct (nth_error (frames s ++ [fr]) (length (frames s))) as [f0|] eqn:Hf0.
    + cbn. eapply Trace_putFrame with (s := set_frames _ s) (f' := set_pc Returned f0);
        [exact T0|exact Hf0|..]; cbn; auto.
      rewrite nth_error_app2, Nat.sub_diag in Hf0 by lia. injection Hf0 as <-.
      destruct (trace_none _ _ T (length (frames s))) as (E1 & E2 & E3); [lia|].
      unfold traced. cbn. rewrite E1, E2, E3. split; [exists 0%nat; reflexivity|auto].
    + cbn. apply Trace_hush with (2 := T0). hush_now.
  - destruct (hdr_number (latest (world s)) =? 0); cbn;
      (apply Trace_hush with (2 := T0); hush_now).
Qed.

(** Before the test of the loop: the transactions before [index] have been
    tried, and nothing has been submitted. *)
Lemma Trace_iterate a f0 f s :
  Trace config s -> nth_error (frames s) a = Some f0 ->
  attempted a (effects s) = firstn (index f) (txs f) ->
  submitted a (effects s) = [] -> removed a (effects s) = [] ->
  Trace config (exec (iterate a f) s).
Proof.
  intros T Hf HA HS HR. unfold iterate. monad.
  destruct (Nat.ltb_spec (index f) (length (txs f))) as [L|L];
    destruct (blockFull f) eqn:B; destruct (interrupt f) eqn:I; cbn;
    (eapply Trace_putFrame; [exact T|exact Hf|cbn; reflexivity|others|]);
    unfold traced; cbn; rewrite ?Nat.eqb_refl, ?HA, ?HS, ?HR;
    try (split; [eexists; reflexivity|auto]);
    try (repeat split; auto; discriminate);
    try (repeat split; auto; lia).
  all: repeat split; auto; first [apply firstn_S_nth, L | congruence | lia].
Qed.


Lemma Trace_effect e s :
  (forall a, attempted a (e :: effects s) = attempted a (effects s) /\
             submitted a (e :: effects s) = submitted a (effects s) /\
             removed a (e :: effects s) = removed a (effects s)) ->
  Trace config s -> Trace config (exec (effect e) s).
Proof. intros H. apply Trace_hush. split; [reflexivity|exact H]. Qed.

Lemma Trace_catchAddTransaction a m f0 f s :
  Trace config s -> nth_error (frames s) a = Some f0 ->
  attempted a (effects s) = firstn (S (index f)) (txs f) ->
  submitted a (effects s) = [] -> removed a (effects s) = [] ->
  Trace config (exec (catchAddTransaction a m f) s).
Proof.
  intros T Hf HA HS HR. unfold catchAddTransaction.
  destruct (String.eqb m gasLimitExceeded).
  - destruct (gasUsed f >? gasLimit f - 21000).
    + destruct (toNumber _).
      * rewrite exec_bind. eapply Trace_iterate; eauto.
        apply Trace_effect; auto.
      * monad; cbn.
        eapply Trace_putFrame; [exact T|exact Hf|cbn; reflexivity|others|].
        unfold traced; cbn. rewrite HA, HS, HR. split; [eexists; reflexivity|auto].
    + eapply Trace_iterate; eauto.
  - rewrite exec_bind. eapply Trace_iterate; eauto.
    apply Trace_effect; auto.
Qed.

Ltac put T Hf :=
  monad; cbn;
  (eapply Trace_putFrame; [exact T|exact Hf|cbn; reflexivity|others|]);
  unfold traced, untouched; cbn; rewrite ?Nat.eqb_refl.

Lemma Trace_openBlockBuilder a f0 f s :
  Trace config s -> nth_error (frames s) a = Some f0 ->
  untouched a (effects s) ->
  Trace config (exec (openBlockBuilder config a f) s).
Proof.
  intros T Hf U. unfold openBlockBuilder. put T Hf. exact U.
Qed.

Lemma Trace_resume a r s : Trace config s -> Trace config (exec (resume config a r) s).
Proof.
  intros T. unfold resume. rewrite exec_bind.
  change (exec get s) with s. change (fst (get s)) with s.
  destruct (nth_error (frames s) a) as [f|] eqn:Hf; [|exact T].
  pose proof (trace_frames _ _ T a f Hf) as Tf. unfold traced, untouched in Tf.
  destruct (pc f) eqn:Hpc, r; try exact T.
  - destruct Tf as (D & A & S & R). destruct (isPoA config) eqn:P.
    + put T Hf. auto.
    + eapply Trace_openBlockBuilder; eauto. repeat split; auto.
  - destruct Tf as (D & A & S & R). put T Hf. rewrite A, S, R.
    split; [exists 0%nat; reflexivity|auto].
  - destruct Tf as (D & P & A & S & R).
    eapply Trace_openBlockBuilder; eauto. repeat split; auto.
  - destruct Tf as (D & P & A & S & R). put T Hf. rewrite A, S, R.
    split; [exists 0%nat; reflexivity|auto].
  - put T Hf. exact Tf.
  - destruct Tf as (A & S & R). put T Hf. rewrite A, S, R.
    split; [exists 0%nat; reflexivity|auto].
  - destruct Tf as (A & S & R). destruct (printable (baseFeePerGas f)).
    + rewrite exec_bind. eapply Trace_iterate; eauto.
      apply Trace_effect; auto.
    + put T Hf. rewrite A, S, R. split; [exists 0%nat; reflexivity|auto].
  - destruct Tf as (A & S & R). put T Hf. rewrite A, S, R.
    split; [exists 0%nat; reflexivity|auto].
  - destruct Tf as (A & L & S & R). eapply Trace_iterate; eauto.
  - destruct Tf as (A & L & S & R). eapply Trace_catchAddTransaction; eauto.
  - destruct Tf as (A & L & S & R). destruct (interrupt f).
    + put T Hf. rewrite A, S, R. split; [eexists; reflexivity|auto].
    + put T Hf. rewrite A, S, R. repeat split; auto. exists b. auto.
  - destruct Tf as (A & L & S & R). put T Hf. rewrite A, S, R.
    split; [eexists; reflexivity|auto].
  - destruct Tf as (A & L & b & B & S & R). rewrite B. put T Hf. rewrite A, S, R.
    split; [eexists; reflexivity|]. right. exists b. repeat split; auto.
    intros F. apply firstn_all2, L, F.
  - destruct Tf as (A & L & b & B & S & R). put T Hf. rewrite A, S, R.
    split; [eexists; reflexivity|]. right. exists b. repeat split; auto.
    intros F. apply firstn_all2, L, F.
Qed.

Lemma Trace_call h s : Trace config s -> Trace config (exec (call config h) s).
Proof.
  destruct h; cbn [call]; intros T.
  - apply Trace_hush with (2 := T), hush_chainUpdated.
  - apply Trace_assembleBlock, T.
  - apply Trace_setInterrupt, T.
Qed.

Lemma Trace_fold l s :
  Trace config s -> Trace config (fold_left (fun s' f => exec (call config (fn_body f)) s') l s).
Proof.
  revert s; induction l as [|g l IH]; intros s T; cbn; auto.
  apply IH, Trace_call, T.
Qed.

Lemma Trace_fire t s : Trace config s -> Trace config (exec (fire config t) s).
Proof.
  intros T. unfold fire. rewrite exec_bind.
  change (exec get s) with s. change (fst (get s)) with s.
  destruct (find _ _); [|exact T].
  rewrite exec_bind. apply Trace_call.
  apply Trace_hush with (2 := T). hush_now.
Qed.

Lemma Trace_step s i : Trace config s -> Trace config (step config s i).
Proof.
  intros T. destruct i; cbn [step].
  - apply Trace_hush with (2 := T). hush_now.
  - apply Trace_hush with (2 := T), hush_start.
  - apply Trace_hush with (2 := T), hush_stop.
  - apply Trace_assembleBlock, T.
  - apply Trace_hush with (2 := T), hush_queueNextAssembly.
  - apply Trace_fold, T.
  - apply Trace_fire, T.
  - apply Trace_hush with (2 := T), hush_queueNextAssembly_resume.
  - apply Trace_hush with (2 := T), hush_queueNextAssembly_reject.
  - apply Trace_resume, T.
Qed.

Lemma Trace_reachable s : reachable config s -> Trace config s.
Proof.
  intros (w & ins & ->). unfold run.
  assert (T : Trace config (init w)) by apply Trace_init.
  generalize dependent (init w). induction ins as [|i ins IH]; intros s T; cbn; auto.
  apply IH, Trace_step, T.
Qed.

(** X10.  A call of [assembleBlock] hands at most one block to
    [handleNewBlock], and what it hands to [removeNewBlockTxs] is nothing or
    that very block. *)
Theorem handleNewBlock_at_most_once (s : State) (a : nat) :
  reachable config s ->
  (length (submitted a (effects s)) <= 1)%nat /\
  (removed a (effects s) = [] \/ removed a (effects s) = submitted a (effects s)).
Proof.
  intros R. pose proof (Trace_reachable s R) as T.
  destruct (nth_error (frames s) a) as [f|] eqn:Hf.
  - pose proof (trace_frames _ _ T a f Hf) as Tf. unfold traced, untouched in Tf.
    destruct (pc f).
    + destruct Tf as (_ & _ & S & Rm). rewrite S, Rm. cbn; auto.
    + destruct Tf as (_ & _ & _ & S & Rm). rewrite S, Rm. cbn; auto.
    + destruct Tf as (_ & S & Rm). rewrite S, Rm. cbn; auto.
    + destruct Tf as (_ & S & Rm). rewrite S, Rm. cbn; auto.
    + destruct Tf as (_ & _ & S & Rm). rewrite S, Rm. cbn; auto.
    + destruct Tf as (_ & _ & S & Rm). rewrite S, Rm. cbn; auto.
    + destruct Tf as (_ & _ & b & _ & S & Rm). rewrite S, Rm. cbn; auto.
    + destruct Tf as (_ & [(S & Rm)|(b & S & [Rm|Rm] & _)]); rewrite S, Rm; cbn; auto.
  - apply nth_error_None in Hf.
    destruct (trace_none _ _ T a Hf) as (_ & S & Rm). rewrite S, Rm. cbn; auto.
Qed.

(** X8.  The transactions a call of [assembleBlock] has handed to
    [addTransaction] are the first [k] transactions the pool returned, in the
    order of the pool: none before the pool has answered, and the first
    [index + 1] while the call awaits [addTransaction]. *)
Theorem addTransaction_in_order (s : State) (a : nat) (f : Frame) :
  reachable config s ->
  nth_error (frames s) a = Some f ->
  exists k,
    attempted a (effects s) = firstn k (txs f) /\
    (pc f = AwaitAddTransaction -> k = S (index f) /\ (index f < length (txs f))%nat) /\
    (beforeBuilder (pc f) = true \/ pc f = AwaitBuildBlock \/ pc f = AwaitTxs -> k = 0%nat).
Proof.
  intros R Hf. pose proof (trace_frames _ _ (Trace_reachable s R) a f Hf) as Tf.
  unfold traced, untouched in Tf.
  destruct (pc f).
  - destruct Tf as (_ & A & _). exists 0%nat. rewrite A. repeat split; auto; discriminate.
  - destruct Tf as (_ & _ & A & _). exists 0%nat. rewrite A. repeat split; auto; discriminate.
  - destruct Tf as (A & _). exists 0%nat. rewrite A. repeat split; auto; discriminate.
  - destruct Tf as (A & _). exists 0%nat. rewrite A. repeat split; auto; discriminate.
  - destruct Tf as (A & L & _). exists (S (index f)). rewrite A. repeat split; auto.
    cbn. intros [?|[?|?]]; discriminate.
  - destruct Tf as (A & _). exists (index f). rewrite A. repeat split; try discriminate.
    cbn. intros [?|[?|?]]; discriminate.
  - destruct Tf as (A & _). exists (index f). rewrite A. repeat split; try discriminate.
    cbn. intros [?|[?|?]]; discriminate.
  - destruct Tf as ((k & A) & _). exists k. rewrite A. repeat split; try discriminate.
    cbn. intros [?|[?|?]]; discriminate.
Qed.

(** X9.  A call of [assembleBlock] that awaits [build()] or has called
    [handleNewBlock], without having found the block full, has handed every
    transaction the pool returned to [addTransaction]. *)
Theorem sealed_block_tried_every_tx (s : State) (a : nat) (f : Frame) :
  reachable config s ->
  nth_error (frames s) a = Some f ->
  pc f = AwaitBuild \/ submitted a (effects s) <> [] ->
  blockFull f = false ->
  attempted a (effects s) = txs f.
Proof.
  intros R Hf H F. pose proof (trace_frames _ _ (Trace_reachable s R) a f Hf) as Tf.
  unfold traced, untouched in Tf.
  destruct (pc f) eqn:Hpc;
    try (exfalso; destruct H as [H|H]; [discriminate|]; apply H; tauto).
  - destruct Tf as (A & L & _). rewrite A. apply firstn_all2, L, F.
  - destruct Tf as (A & L & _). rewrite A. apply firstn_all2, L, F.
  - destruct Tf as (_ & [(S & _)|(b & _ & _ & A)]); [|auto].
    destruct H as [H|H]; [discriminate|contradiction].
Qed.

(** X7.  The difficulty in the header data handed to [buildBlock]: absent
    on a chain without proof of authority; on a proof-of-authority chain 2
    when [cliqueSignerInTurn] answered that the signer is in turn and 1
    when it is not. *)
Theorem difficulty_of_header (s : State) (a : nat) (f : Frame) (r : Response) :
  reachable config s ->
  nth_error (frames s) a = Some f ->
  opensBuilder config f r = true ->
  exists hd,
    effects (step config s (Resume a r)) =
      CallBuildBlock a (latestBlock (world s)) hd :: effects s /\
    (isPoA config = false -> r = Resolved /\ hd_difficulty hd = None) /\
    (isPoA config = true ->
     exists inTurn, r = InTurn inTurn /\ hd_difficulty hd = Some (if inTurn then 2 else 1)).
Proof.
  intros R Hf Ho. pose proof (trace_frames _ _ (Trace_reachable s R) a f Hf) as Tf.
  unfold traced in Tf.
  cbn [step]. unfold resume. rewrite exec_bind.
  change (exec get s) with s. change (fst (get s)) with s.
  rewrite Hf. unfold opensBuilder in Ho.
  destruct (pc f), r; try discriminate.
  - apply negb_true_iff in Ho. rewrite Ho. rewrite openBlockBuilder_effects.
    eexists. split; [reflexivity|]. destruct Tf as (D & _). split.
    + intros _. split; auto.
    + congruence.
  - rewrite openBlockBuilder_effects. destruct Tf as (_ & P & _).
    eexists. split; [reflexivity|]. split.
    + congruence.
    + intros _. exists inTurn. auto.
Qed.

End Traces.

(** ** Listeners, timeouts and the flag [assembling] *)

Lemma within_refl s : within s s.
Proof. unfold within; auto. Qed.

Lemma within_trans s1 s2 s3 : within s1 s2 -> within s2 s3 -> within s1 s3.
Proof.
  unfold within. intros (A & B & C & D) (E & F & G & H). repeat split; congruence.
Qed.

Ltac within_now := unfold within; cbn; rewrite ?length_update; auto.

Section Listeners.

Variable config : Config.

Lemma within_iterate a f s : within s (exec (iterate a f) s).
Proof.
  unfold iterate. monad.
  destruct (_ && _); [|destruct (interrupt f)]; within_now.
Qed.

Lemma within_catchAddTransaction a m f s : within s (exec (catchAddTransaction a m f) s).
Proof.
  unfold catchAddTransaction.
  destruct (String.eqb _ _); [destruct (_ >? _); [destruct (toNumber _)|]|];
    rewrite ?exec_bind;
    try (eapply within_trans; [|apply within_iterate]); within_now.
Qed.

Lemma within_queueNextAssembly t s : within s (exec (queueNextAssembly config t) s).
Proof.
  unfold queueNextAssembly, schedule. monad.
  destruct (nextAssemblyTimeoutId s), (isPoA config); within_now.
Qed.

Lemma within_queueNextAssembly_resume q b j s :
  within s (exec (queueNextAssembly_resume q b j) s).
Proof.
  unfold queueNextAssembly_resume, schedule. monad.
  destruct (nth_error (queueing s) q) as [[t [|]]|]; within_now.
Qed.

Lemma within_queueNextAssembly_reject q s :
  within s (exec (queueNextAssembly_reject q) s).
Proof.
  unfold queueNextAssembly_reject. monad.
  destruct (nth_error (queueing s) q) as [[t [|]]|]; within_now.
Qed.

Lemma within_chainUpdated s : within s (exec (chainUpdated config) s).
Proof.
  unfold chainUpdated. monad.
  destruct (_ <? _); [|apply within_refl].
  destruct (toNumber _); [destruct (toNumber _)|]; cbn -[queueNextAssembly]; try apply within_refl.
  match goal with |- within _ (snd (queueNextAssembly _ ?t ?s')) =>
    apply within_trans with s'; [|apply (within_queueNextAssembly t s')] end.
  within_now.
Qed.

(** A resumed call of [assembleBlock] leaves the listeners as they are:
    the one [removeListener] on its way is given a new function object. *)
Lemma resume_listeners a r s :
  (forall g, In g (listeners s) -> (fn_id g < functions s)%nat) ->
  listeners (exec (resume config a r) s) = listeners s /\
  world (exec (resume config a r) s) = world s /\
  length (frames (exec (resume config a r) s)) = length (frames s) /\
  (clearsAssembling (Resume a r) = false ->
   assembling (exec (resume config a r) s) = assembling s).
Proof.
  intros F. unfold resume. rewrite exec_bind.
  change (exec get s) with s. change (fst (get s)) with s.
  destruct (nth_error (frames s) a) as [f|]; [|auto].
  assert (W : forall s', within s s' ->
            listeners s' = listeners s /\ world s' = world s /\
            length (frames s') = length (frames s) /\
            (clearsAssembling (Resume a r) = false -> assembling s' = assembling s)).
  { unfold within. intuition. }
  destruct (pc f), r; try (apply W; within_now; fail).
  - apply W. destruct (isPoA config); within_now.
  - apply W. destruct (printable _); rewrite ?exec_bind;
      try (eapply within_trans; [|apply within_iterate]); within_now.
  - apply W, within_iterate.
  - apply W, within_catchAddTransaction.
  - destruct (interrupt f); cbn; rewrite ?length_update; repeat split; auto; discriminate.
  - destruct (block f); monad; cbn -[remove_last];
      rewrite length_update, remove_last_fresh by (intros g Hg; apply F in Hg; cbn; lia); auto.
Qed.


Lemma setInterrupt_within a s :
  listeners (exec (setInterrupt a) s) = listeners s /\
  world (exec (setInterrupt a) s) = world s /\
  length (frames (exec (setInterrupt a) s)) = length (frames s) /\
  assembling (exec (setInterrupt a) s) = false.
Proof.
  unfold setInterrupt. monad.
  destruct (nth_error (frames s) a); cbn; rewrite ?length_update; auto.
Qed.

Lemma assembleBlock_listeners s :
  listeners (exec (assembleBlock config) s) =
    (if assembling s then listeners s
     else listeners s ++ [{| fn_id := functions s;
                             fn_body := HSetInterrupt (length (frames s)) |}]) /\
  world (exec (assembleBlock config) s) = world s.
Proof.
  unfold assembleBlock. monad.
  destruct (assembling s); [auto|]. cbn.
  destruct (_ && _); cbn.
  - destruct (nth_error _ _); cbn; auto.
  - destruct (_ =? _); cbn; auto.
Qed.

Lemma grows_refl s : grows s s.
Proof. exists []. rewrite app_nil_r. auto. Qed.

Lemma grows_trans s1 s2 s3 : grows s1 s2 -> grows s2 s3 -> grows s1 s3.
Proof.
  intros (e1 & A1 & B1) (e2 & A2 & B2). exists (e1 ++ e2).
  rewrite A2, A1, app_assoc, forallb_app, B1, B2. auto.
Qed.

Lemma grows_same s s' : listeners s' = listeners s -> grows s s'.
Proof. intros E. exists []. rewrite app_nil_r. auto. Qed.

Lemma grows_call h s : grows s (exec (call config h) s).
Proof.
  destruct h; cbn [call].
  - apply grows_same, quiet_chainUpdated.
  - destruct (assembleBlock_listeners s) as [E _]. destruct (assembling s).
    + apply grows_same, E.
    + eexists. split; [exact E|reflexivity].
  - apply grows_same, setInterrupt_within.
Qed.

Lemma grows_fold l s :
  grows s (fold_left (fun s' f => exec (call config (fn_body f)) s') l s).
Proof.
  revert s; induction l as [|g l IH]; intros s; cbn.
  - apply grows_refl.
  - eapply grows_trans; [apply grows_call|apply IH].
Qed.

Lemma grows_step s i : Inv s -> grows s (step config s i).
Proof.
  intros I. destruct i; cbn [step].
  - apply grows_same. reflexivity.
  - unfold start. rewrite exec_bind.
    change (exec get s) with s. change (fst (get s)) with s.
    destruct (negb (mine config) || running s); [apply grows_refl|].
    rewrite !exec_bind.
    match goal with |- grows _ (exec _ (exec _ (exec _ ?s1))) =>
      apply grows_trans with s1 end.
    + eexists. split; [reflexivity|reflexivity].
    + apply grows_same.
      match goal with |- listeners (exec _ (exec _ (exec _ ?s1))) = _ =>
        exact (proj1 (quiet_queueNextAssembly config None s1)) end.
  - apply grows_same, stop_listeners, I.
  - apply (grows_call HAssembleBlock).
  - apply grows_same, quiet_queueNextAssembly.
  - apply grows_fold.
  - unfold fire. rewrite exec_bind.
    change (exec get s) with s. change (fst (get s)) with s.
    destruct (find _ _); [|apply grows_refl].
    rewrite exec_bind. eapply grows_trans; [|apply grows_call].
    apply grows_same. reflexivity.
  - apply grows_same, quiet_queueNextAssembly_resume.
  - apply grows_same, quiet_queueNextAssembly_reject.
  - apply grows_same, resume_listeners, I.
Qed.

Lemma Tame_grows s s' : grows s s' -> Tame s -> Tame s'.
Proof.
  intros (extra & E & F) T g. rewrite E. intros Hg.
  apply in_app_or in Hg as [Hg|Hg]; [auto|].
  rewrite forallb_forall in F. apply F in Hg. apply negb_true_iff, Hg.
Qed.

Lemma Tame_reachable s : reachable config s -> Tame s.
Proof.
  intros (w & ins & ->). unfold run.
  assert (I : Inv (init w)) by apply Inv_init.
  assert (T : Tame (init w)) by (intros g []).
  generalize dependent (init w). induction ins as [|i ins IH]; intros s I T; cbn; auto.
  apply IH.
  - apply Inv_step, I.
  - eapply Tame_grows; [apply grows_step, I|exact T].
Qed.

(** X4.  Whatever happens to a miner, the listeners of [CHAIN_UPDATED]
    registered in a state it has reached all stay registered, in their
    order: both calls of [removeListener] are given a function object made
    for the occasion, which is no listener. *)
Theorem listeners_are_never_removed (s : State) (ins : list Input) :
  reachable config s ->
  exists extra, listeners (run config s ins) = listeners s ++ extra.
Proof.
  intros R. apply Inv_reachable in R. revert s R.
  induction ins as [|i ins IH]; intros s I; cbn.
  - exists []. rewrite app_nil_r. reflexivity.
  - destruct (grows_step s i I) as (e1 & E1 & _).
    destruct (IH _ (Inv_step config s i I)) as (e2 & E2).
    exists (e1 ++ e2). unfold run in E2. rewrite E2, E1, app_assoc. reflexivity.
Qed.

End Listeners.

Lemma rings_refl s : rings s s.
Proof. intros t Ht. auto. Qed.

Lemma rings_trans s1 s2 s3 : rings s1 s2 -> rings s2 s3 -> rings s1 s3.
Proof.
  intros A B t Ht. destruct (B t Ht) as [H|H]; auto.
Qed.

Lemma rings_still s s' : still s s' -> rings s s'.
Proof. intros (E & _) t. rewrite E. auto. Qed.

Lemma Alarm_rings s s' : rings s s' -> Alarm s -> Alarm s'.
Proof. intros R A t Ht. destruct (R t Ht) as [H|H]; auto. Qed.

Ltac rings_now :=
  let t := fresh "t" in
  let Ht := fresh "Ht" in
  unfold rings; cbn; intros t Ht;
  repeat match goal with
         | H : In _ (_ ++ _) |- _ => apply in_app_or in H as [H|H]
         | H : In _ (filter _ _) |- _ => apply filter_In in H as [H _]
         | H : In _ [_] |- _ => destruct H as [<-|[]]
         end; auto.

Section Alarms.

Variable config : Config.

Lemma rings_queueNextAssembly t s : rings s (exec (queueNextAssembly config t) s).
Proof.
  unfold queueNextAssembly, schedule. monad.
  destruct (nextAssemblyTimeoutId s), (isPoA config); rings_now.
Qed.

Lemma rings_queueNextAssembly_resume q b j s :
  rings s (exec (queueNextAssembly_resume q b j) s).
Proof.
  unfold queueNextAssembly_resume, schedule. monad.
  destruct (nth_error (queueing s) q) as [[t [|]]|]; rings_now.
Qed.

Lemma rings_queueNextAssembly_reject q s :
  rings s (exec (queueNextAssembly_reject q) s).
Proof.
  unfold queueNextAssembly_reject. monad.
  destruct (nth_error (queueing s) q) as [[t [|]]|]; rings_now.
Qed.

Lemma rings_chainUpdated s : rings s (exec (chainUpdated config) s).
Proof.
  unfold chainUpdated. monad.
  destruct (_ <? _); [|apply rings_refl].
  destruct (toNumber _); [destruct (toNumber _)|]; cbn -[queueNextAssembly]; try apply rings_refl.
  match goal with |- rings _ (snd (queueNextAssembly _ ?t ?s')) =>
    apply rings_trans with s'; [|apply (rings_queueNextAssembly t s')] end.
  rings_now.
Qed.

Lemma rings_call h s : rings s (exec (call config h) s).
Proof.
  destruct h; cbn [call].
  - apply rings_chainUpdated.
  - apply rings_still, still_assembleBlock.
  - apply rings_still, still_setInterrupt.
Qed.

Lemma rings_fold l s :
  rings s (fold_left (fun s' f => exec (call config (fn_body f)) s') l s).
Proof.
  revert s; induction l as [|g l IH]; intros s; cbn.
  - apply rings_refl.
  - eapply rings_trans; [apply rings_call|apply IH].
Qed.

Lemma rings_step s i : rings s (step config s i).
Proof.
  destruct i; cbn [step].
  - rings_now.
  - unfold start. rewrite exec_bind.
    change (exec get s) with s. change (fst (get s)) with s.
    destruct (negb (mine config) || running s); [apply rings_refl|].
    rewrite !exec_bind.
    match goal with |- rings _ (exec _ (exec _ (exec _ ?s1))) =>
      apply rings_trans with s1; [rings_now|];
      apply rings_trans with (exec (queueNextAssembly config None) s1);
        [apply rings_queueNextAssembly|] end.
    unfold rings. cbn -[queueNextAssembly]. auto.
  - unfold stop. monad. destruct (negb (running s)); [apply rings_refl|].
    destruct (nextAssemblyTimeoutId s); rings_now.
  - apply rings_still, still_assembleBlock.
  - apply rings_queueNextAssembly.
  - apply rings_fold.
  - unfold fire. rewrite exec_bind.
    change (exec get s) with s. change (fst (get s)) with s.
    destruct (find _ _); [|apply rings_refl].
    rewrite exec_bind. eapply rings_trans; [|apply rings_call]. rings_now.
  - apply rings_queueNextAssembly_resume.
  - apply rings_queueNextAssembly_reject.
  - apply rings_still, still_resume.
Qed.

Lemma Alarm_run ins s : Alarm s -> Alarm (run config s ins).
Proof.
  revert s; induction ins as [|i ins IH]; intros s A; cbn; auto.
  apply IH. eapply Alarm_rings; [apply rings_step|exact A].
Qed.

Lemma Alarm_reachable s : reachable config s -> Alarm s.
Proof. intros (w & ins & ->). apply Alarm_run. intros t []. Qed.

(** One step that is neither the event nor the return of [build()]. *)
Lemma assembling_step s i :
  Inv s -> Alarm s -> assembling s = true -> clearsAssembling i = false ->
  assembling (step config s i) = true /\
  length (frames (step config s i)) = length (frames s).
Proof.
  intros I A E C.
  assert (W : forall s', within s s' ->
            assembling s' = true /\ length (frames s') = length (frames s)).
  { intros s' (_ & B & _ & L). split; congruence. }
  assert (N : exec (assembleBlock config) s = s).
  { unfold assembleBlock. monad. rewrite E. reflexivity. }
  destruct i; cbn [step]; try discriminate C.
  - auto.
  - unfold start. rewrite exec_bind.
    change (exec get s) with s. change (fst (get s)) with s.
    destruct (negb (mine config) || running s); [auto|].
    rewrite !exec_bind.
    match goal with |- context [exec _ (exec _ (exec (queueNextAssembly _ _) ?s1))] =>
      destruct (within_queueNextAssembly config None s1) as (_ & B & _ & L) end.
    cbn -[queueNextAssembly] in *. split; congruence.
  - unfold stop. monad. destruct (negb (running s)); [auto|].
    destruct (nextAssemblyTimeoutId s); cbn; auto.
  - rewrite N. auto.
  - apply W, within_queueNextAssembly.
  - unfold fire. rewrite exec_bind.
    change (exec get s) with s. change (fst (get s)) with s.
    destruct (find _ _) as [x|] eqn:F; [|auto].
    apply find_some in F as [F _]. rewrite exec_bind, (A x F). cbn [call].
    unfold assembleBlock. monad. cbn. rewrite E. cbn. auto.
  - apply W, within_queueNextAssembly_resume.
  - apply W, within_queueNextAssembly_reject.
  - destruct (resume_listeners config a r s (inv_fresh _ I)) as (_ & _ & L & B).
    rewrite B by exact C. auto.
Qed.

(** X6.  Once [assembling] is set, only a [CHAIN_UPDATED] event or the
    return of a [build()] unsets it.  Until then no call of [assembleBlock]
    gets past line 110, also when the call that set the flag has ended on a
    rejected promise. *)
Theorem assembling_stays_set (s : State) (ins : list Input) :
  reachable config s ->
  assembling s = true ->
  forallb (fun i => negb (clearsAssembling i)) ins = true ->
  assembling (run config s ins) = true /\
  length (frames (run config s ins)) = length (frames s).
Proof.
  intros R. pose proof (Inv_reachable config s R) as I.
  pose proof (Alarm_reachable s R) as A. clear R. revert s I A.
  induction ins as [|i ins IH]; intros s I A E F; cbn; auto.
  cbn in F. apply andb_true_iff in F as [C F]. apply negb_true_iff in C.
  destruct (assembling_step s i I A E C) as [E' L].
  destruct (IH (step config s i)) as [E'' L'']; auto.
  - apply Inv_step, I.
  - eapply Alarm_rings; [apply rings_step|exact A].
  - unfold run in *. split; congruence.
Qed.

End Alarms.

Section Events.

Variable config : Config.

Lemma call_within h s :
  isAssembleBlock h = false ->
  listeners (exec (call config h) s) = listeners s /\
  world (exec (call config h) s) = world s /\
  length (frames (exec (call config h) s)) = length (frames s) /\
  assembling (exec (call config h) s) = (if isSetInterrupt h then false else assembling s).
Proof.
  destruct h; cbn [call isAssembleBlock isSetInterrupt]; intros H; try discriminate.
  - destruct (within_chainUpdated config s) as (A & B & C & D). auto.
  - apply setInterrupt_within.
Qed.

Lemma interrupted_call a h s :
  isAssembleBlock h = false -> interrupted a s -> interrupted a (exec (call config h) s).
Proof.
  destruct h as [| |b]; cbn [call isAssembleBlock]; intros H (f & Hf & Hi); try discriminate.
  - exists f. destruct (quiet_chainUpdated config s) as (_ & _ & E & _).
    rewrite E. auto.
  - unfold setInterrupt. monad.
    destruct (nth_error (frames s) b) as [f0|] eqn:Hf0; cbn; [|exists f; auto].
    destruct (Nat.eq_dec b a) as [->|Hne].
    + exists (set_interrupt true f0). cbn.
      split; [eapply nth_error_update_eq; eauto|reflexivity].
    + exists f. cbn. rewrite nth_error_update_neq by auto. auto.
Qed.

Lemma setInterrupt_interrupts a s :
  (a < length (frames s))%nat -> interrupted a (exec (setInterrupt a) s).
Proof.
  intros H. unfold setInterrupt. monad.
  destruct (nth_error (frames s) a) as [f|] eqn:Hf; cbn.
  - exists (set_interrupt true f). cbn.
    split; [eapply nth_error_update_eq; eauto|reflexivity].
  - apply nth_error_None in Hf. lia.
Qed.

Lemma fold_within l s :
  (forall g, In g l -> isAssembleBlock (fn_body g) = false) ->
  let s' := fold_left (fun s' f => exec (call config (fn_body f)) s') l s in
  listeners s' = listeners s /\
  world s' = world s /\
  length (frames s') = length (frames s) /\
  assembling s' =
    (if existsb (fun g => isSetInterrupt (fn_body g)) l then false else assembling s).
Proof.
  revert s; induction l as [|g l IH]; intros s T; cbn; auto.
  destruct (call_within (fn_body g) s) as (A & B & C & D); [apply T; left; auto|].
  destruct (IH (exec (call config (fn_body g)) s)) as (A' & B' & C' & D').
  { intros g' Hg'. apply T. right. auto. }
  cbn in *. rewrite A', B', C', D', A, B, C, D.
  repeat split; auto.
  destruct (isSetInterrupt (fn_body g)); cbn; auto.
  destruct (existsb _ l); auto.
Qed.

Lemma fold_interrupted a l s :
  (forall g, In g l -> isAssembleBlock (fn_body g) = false) ->
  interrupted a s ->
  interrupted a (fold_left (fun s' f => exec (call config (fn_body f)) s') l s).
Proof.
  revert s; induction l as [|g l IH]; intros s T H; cbn; auto.
  apply IH.
  - intros g' Hg'. apply T. right. auto.
  - apply interrupted_call; auto. apply T. left. auto.
Qed.

Lemma fold_interrupts a l s :
  (forall g, In g l -> isAssembleBlock (fn_body g) = false) ->
  (a < length (frames s))%nat ->
  (exists g, In g l /\ fn_body g = HSetInterrupt a) ->
  interrupted a (fold_left (fun s' f => exec (call config (fn_body f)) s') l s).
Proof.
  revert s; induction l as [|g l IH]; intros s T L (g0 & Hin & Hg0); cbn.
  - destruct Hin.
  - assert (T' : forall g', In g' l -> isAssembleBlock (fn_body g') = false)
      by (intros g' Hg'; apply T; right; auto).
    destruct Hin as [->|Hin].
    + apply fold_interrupted; auto. rewrite Hg0. cbn [call].
      apply setInterrupt_interrupts, L.
    + apply IH; eauto.
      destruct (call_within (fn_body g) s) as (_ & _ & C & _); [apply T; left; auto|].
      rewrite C. exact L.
Qed.

(** X5.  A [CHAIN_UPDATED] event sets [interrupt] in every call of
    [assembleBlock] made so far, the returned ones included, and leaves
    [assembling] unset when there is such a call; it starts no call and
    registers no listener. *)
Theorem event_interrupts_every_call (s : State) :
  reachable config s ->
  let s' := step config s EmitChainUpdated in
  listeners s' = listeners s /\
  length (frames s') = length (frames s) /\
  (forall a f, nth_error (frames s') a = Some f -> interrupt f = true) /\
  (frames s <> [] -> assembling s' = false).
Proof.
  intros R s'. pose proof (Inv_reachable config s R) as I.
  pose proof (Tame_reachable config s R) as T.
  assert (E' : s' = fold_left (fun s' f => exec (call config (fn_body f)) s') (listeners s) s)
    by reflexivity.
  clearbody s'. subst s'.
  destruct (fold_within (listeners s) s T) as (A & _ & C & D). cbn zeta in *.
  split; [exact A|]. split; [exact C|]. split.
  - intros a f Hf.
    assert (L : (a < length (frames s))%nat).
    { rewrite <- C. apply nth_error_Some. congruence. }
    destruct (fold_interrupts a (listeners s) s T L (inv_listening _ I a L)) as (f' & Hf' & Hi).
    congruence.
  - intros N. rewrite D.
    destruct (frames s) as [|f0 fs] eqn:E; [contradiction|].
    destruct (inv_listening _ I 0%nat) as (g & Hg & Hb); [rewrite E; cbn; lia|].
    assert (X : existsb (fun g => isSetInterrupt (fn_body g)) (listeners s) = true).
    { apply existsb_exists. exists g. rewrite Hb. auto. }
    rewrite X. reflexivity.
Qed.

End Events.

Section Pending.

Variable config : Config.
Hypothesis noAwait : isPoA config = false.

Lemma OneTimer_reachable s : reachable config s -> OneTimer s.
Proof.
  intros (w & ins & ->). unfold run.
  assert (T : OneTimer (init w)).
  { unfold OneTimer; cbn. repeat split; auto. intros t []. }
  generalize dependent (init w). induction ins as [|i ins IH]; intros s T; cbn; auto.
  apply IH, OneTimer_step; auto.
Qed.

Lemma queueNextAssembly_scheduled d s :
  OneTimer s -> scheduled d (exec (queueNextAssembly config (Some d)) s).
Proof.
  intros T. pose proof (OneTimer_clear s T) as C.
  unfold queueNextAssembly, schedule. rewrite noAwait. monad.
  destruct (nextAssemblyTimeoutId s); cbn in *; rewrite C; unfold scheduled; cbn;
    eexists; repeat split; reflexivity.
Qed.

Lemma chainUpdated_scheduled s :
  OneTimer s ->
  Z.abs (period config) < 2 ^ 26 ->
  nextAssemblyDelay config (world s) < 2 ^ 53 ->
  Z.abs (hdr_number (latest (world s))) < 2 ^ 53 ->
  scheduled (nextAssemblyDelay config (world s)) (exec (chainUpdated config) s).
Proof.
  intros T H0 H1 H2. unfold chainUpdated. rewrite exec_bind.
  change (exec get s) with s. change (fst (get s)) with s.
  fold (nextAssemblyDelay config (world s)).
  unfold toNumber.
  assert (N : 0 <= nextAssemblyDelay config (world s)) by (unfold nextAssemblyDelay; lia).
  rewrite (Z.abs_eq _ N).
  destruct (Z.ltb_spec (Z.abs (period config)) (2 ^ 26)); [|lia].
  destruct (Z.ltb_spec (nextAssemblyDelay config (world s)) (2 ^ 53)); [|lia].
  destruct (Z.ltb_spec (Z.abs (hdr_number (latest (world s)))) (2 ^ 53)); [|lia].
  rewrite exec_bind. apply queueNextAssembly_scheduled.
  apply OneTimer_still with (2 := T). unfold still; cbn; auto.
Qed.

Lemma scheduled_still d s s' : still s s' -> scheduled d s -> scheduled d s'.
Proof.
  intros (A & B & _) (t & E & D & F & G). exists t. rewrite A, B. auto.
Qed.

Lemma fold_scheduled w l s :
  (forall g, In g l -> isAssembleBlock (fn_body g) = false) ->
  OneTimer s -> world s = w ->
  Z.abs (period config) < 2 ^ 26 ->
  nextAssemblyDelay config w < 2 ^ 53 ->
  Z.abs (hdr_number (latest w)) < 2 ^ 53 ->
  scheduled (nextAssemblyDelay config w) s \/
  (exists g, In g l /\ fn_body g = HChainUpdated) ->
  scheduled (nextAssemblyDelay config w)
    (fold_left (fun s' f => exec (call config (fn_body f)) s') l s).
Proof.
  revert s; induction l as [|g l IH]; intros s T O W H0 H1 H2 H; cbn.
  - destruct H as [H|(g & [] & _)]. exact H.
  - assert (Tg : isAssembleBlock (fn_body g) = false) by (apply T; left; auto).
    apply IH; auto.
    + intros g' Hg'. apply T. right. auto.
    + apply OneTimer_call; auto.
    + rewrite <- W. apply call_within, Tg.
    + destruct (fn_body g) eqn:B; try discriminate.
      * left. cbn [call]. subst w. apply chainUpdated_scheduled; auto.
      * destruct H as [H|(g0 & [->|Hin] & Hb)].
        -- left. cbn [call]. eapply scheduled_still; [apply still_setInterrupt|exact H].
        -- congruence.
        -- right. eauto.
Qed.

(** X2.  On a chain without proof of authority, a [CHAIN_UPDATED] event
    that reaches a [chainUpdated] listener leaves exactly one timeout
    pending: it runs [assembleBlock] after
    [max(0, latest.timestamp * 1000 + period - Date.now())] milliseconds,
    which is never negative, and it is the one the miner remembers. *)
Theorem chain_updated_reschedules (s : State) :
  reachable config s ->
  (exists g, In g (listeners s) /\ fn_body g = HChainUpdated) ->
  Z.abs (period config) < 2 ^ 26 ->
  nextAssemblyDelay config (world s) < 2 ^ 53 ->
  Z.abs (hdr_number (latest (world s))) < 2 ^ 53 ->
  exists t,
    timers (step config s EmitChainUpdated) = [t] /\
    delay t = nextAssemblyDelay config (world s) /\
    0 <= delay t /\
    fn_body (callback t) = HAssembleBlock /\
    nextAssemblyTimeoutId (step config s EmitChainUpdated) = Some (timer_id t).
Proof.
  intros R L H0 H1 H2.
  destruct (fold_scheduled (world s) (listeners s) s) as (t & E & D & F & G); auto.
  - exact (Tame_reachable config s R).
  - apply OneTimer_reachable, R.
  - exists t. cbn [step]. unfold emit, exec. cbn [snd].
    repeat split; auto. rewrite D. unfold nextAssemblyDelay. lia.
Qed.

(** X1.  On a chain without proof of authority, in every state the miner
    can reach at most one timeout is pending: when there is one, it is the
    one [_nextAssemblyTimeoutId] remembers and it runs [assembleBlock]. *)
Theorem one_pending_timeout (s : State) :
  reachable config s ->
  timers s = [] \/
  exists t, timers s = [t] /\ nextAssemblyTimeoutId s = Some (timer_id t) /\
            fn_body (callback t) = HAssembleBlock.
Proof.
  intros R. destruct (OneTimer_reachable s R) as (T1 & T2 & _).
  pose proof (Alarm_reachable config s R) as A.
  destruct (timers s) as [|t [|t' l]] eqn:E; auto.
  - right. exists t. repeat split.
    + apply T2. left. auto.
    + apply A. rewrite E. left. auto.
  - cbn in T1. lia.
Qed.

End Pending.

Section Stop.

Variable config : Config.

(** X3.  [stop()] returns [false] and changes nothing when the miner is
    not running.  On a running miner it returns [true], unsets [running],
    logs that the miner stopped and removes the remembered timeout from the
    pending ones; the listeners, the calls of [assembleBlock] under way and
    the flag [assembling] stay as they are.  On a chain without proof of
    authority no timeout is pending afterwards. *)
Theorem stop_spec (s : State) :
  (running s = false -> stop s = (false, s)) /\
  (running s = true -> reachable config s ->
   let s' := exec stop s in
   fst (stop s) = true /\
   running s' = false /\
   effects s' = Logger MinerStopped :: effects s /\
   listeners s' = listeners s /\
   frames s' = frames s /\ assembling s' = assembling s /\
   timers s' =
     match nextAssemblyTimeoutId s with
     | Some t => filter (fun x => negb (Nat.eqb (timer_id x) t)) (timers s)
     | None => timers s
     end /\
   (isPoA config = false -> timers s' = [])).
Proof.
  split; intros H.
  - unfold stop, bind, get. rewrite H. reflexivity.
  - intros R s'. pose proof (stop_listeners s (inv_fresh _ (Inv_reachable config s R))) as L.
    assert (Q : isPoA config = false ->
                timers (exec (match nextAssemblyTimeoutId s with
                              | Some t => clearTimeout t
                              | None => ret tt
                              end) s) = []).
    { intros P. apply OneTimer_clear, (OneTimer_reachable config P s R). }
    subst s'. revert L Q. unfold stop. monad. rewrite H. cbn -[remove_last].
    destruct (nextAssemblyTimeoutId s); cbn -[remove_last]; intros L Q; repeat split; auto.
Qed.

End Stop.

(** ** The properties on the example chain *)

Lemma reachable_run config s ins :
  reachable config s -> reachable config (run config s ins).
Proof.
  intros (w & l & ->). exists w, (l ++ ins). unfold run.
  rewrite fold_left_app. reflexivity.
Qed.

Lemma assembledState_reachable : reachable (exampleConfig ProofOfWork) assembledState.
Proof. apply reachable_run, assemblingState_reachable. Qed.

Lemma startedState_reachable : reachable (exampleConfig ProofOfWork) startedState.
Proof. exists (exampleWorld 1), [Start]. reflexivity. Qed.

Lemma rejectedState_reachable : reachable (exampleConfig ProofOfWork) rejectedState.
Proof. exists (exampleWorld 1). eexists. reflexivity. Qed.

Lemma signerState_reachable : reachable (exampleConfig ProofOfAuthority) signerState.
Proof. exists (exampleWorld 1). eexists. reflexivity. Qed.

Lemma one_pending_timeout_witness :
  exists t,
    timers startedState = [t] /\
    nextAssemblyTimeoutId startedState = Some (timer_id t) /\
    fn_body (callback t) = HAssembleBlock.
Proof.
  destruct (one_pending_timeout (exampleConfig ProofOfWork) eq_refl startedState
              startedState_reachable) as [E|H].
  - vm_compute in E. discriminate E.
  - exact H.
Defined.

Lemma chain_updated_reschedules_witness :
  exists t,
    timers (step (exampleConfig ProofOfWork) assemblingState EmitChainUpdated) = [t] /\
    delay t = 1000 /\
    nextAssemblyTimeoutId (step (exampleConfig ProofOfWork) assemblingState EmitChainUpdated) =
      Some (timer_id t).
Proof.
  destruct (chain_updated_reschedules (exampleConfig ProofOfWork) eq_refl assemblingState
              assemblingState_reachable) as (t & E & D & _ & _ & N).
  - exists {| fn_id := 0; fn_body := HChainUpdated |}.
    split; [vm_compute; left; reflexivity|reflexivity].
  - vm_compute. reflexivity.
  - vm_compute. reflexivity.
  - vm_compute. reflexivity.
  - exists t. split; [exact E|]. split; [rewrite D; vm_compute; reflexivity|exact N].
Defined.

Lemma stop_spec_witness :
  stop (init (exampleWorld 1)) = (false, init (exampleWorld 1)) /\
  running (exec stop startedState) = false /\
  listeners (exec stop startedState) = listeners startedState /\
  timers startedState <> [] /\
  timers (exec stop startedState) = [].
Proof.
  split.
  - apply (proj1 (stop_spec (exampleConfig ProofOfWork) (init (exampleWorld 1)))).
    reflexivity.
  - destruct (proj2 (stop_spec (exampleConfig ProofOfWork) startedState) eq_refl
                startedState_reachable) as (_ & R & _ & L & _ & _ & _ & T).
    split; [exact R|]. split; [exact L|]. split; [discriminate|].
    apply T. reflexivity.
Defined.

Lemma listeners_are_never_removed_witness :
  exists extra,
    listeners (run (exampleConfig ProofOfWork) assemblingState (Stop :: restOfAssembly)) =
      listeners assemblingState ++ extra.
Proof.
  apply (listeners_are_never_removed (exampleConfig ProofOfWork) assemblingState
           (Stop :: restOfAssembly)).
  exact assemblingState_reachable.
Defined.

Lemma event_interrupts_every_call_witness :
  assembling assemblingState = true /\
  assembling (step (exampleConfig ProofOfWork) assemblingState EmitChainUpdated) = false /\
  map interrupt (frames (step (exampleConfig ProofOfWork) assemblingState EmitChainUpdated)) =
    [true].
Proof.
  destruct (event_interrupts_every_call (exampleConfig ProofOfWork) assemblingState
              assemblingState_reachable) as (_ & _ & _ & H).
  split; [reflexivity|]. split; [|reflexivity].
  apply H. discriminate.
Defined.

Lemma assembling_stays_set_witness :
  assembling rejectedState = true /\
  map pc (frames rejectedState) = [Returned] /\
  assembling (run (exampleConfig ProofOfWork) rejectedState withoutEvent) = true /\
  length (frames (run (exampleConfig ProofOfWork) rejectedState withoutEvent)) =
    length (frames rejectedState).
Proof.
  split; [reflexivity|]. split; [reflexivity|].
  apply (assembling_stays_set (exampleConfig ProofOfWork) rejectedState withoutEvent).
  - exact rejectedState_reachable.
  - reflexivity.
  - reflexivity.
Defined.

Lemma difficulty_of_header_witness :
  exists hd,
    effects (step (exampleConfig ProofOfAuthority) signerState (Resume 0 (InTurn false))) =
      CallBuildBlock 0 (latestBlock (world signerState)) hd :: effects signerState /\
    hd_difficulty hd = Some 1.
Proof.
  destruct (difficulty_of_header (exampleConfig ProofOfAuthority) signerState 0 signerFrame
              (InTurn false) signerState_reachable eq_refl eq_refl) as (hd & E & _ & H).
  exists hd. split; [exact E|].
  destruct (H eq_refl) as (inTurn & I & D).
  injection I as <-. exact D.
Defined.

Lemma addTransaction_in_order_witness :
  exists k,
    attempted 0 (effects assemblingState) = firstn k [dummyTx; dummyTx] /\ k = 1%nat.
Proof.
  destruct (addTransaction_in_order (exampleConfig ProofOfWork) assemblingState 0
              assemblingFrame assemblingState_reachable eq_refl) as (k & A & B & _).
  exists k. split; [exact A|]. apply B. reflexivity.
Defined.

Lemma sealed_block_tried_every_tx_witness :
  submitted 0 (effects assembledState) = [exampleBlock] /\
  attempted 0 (effects assembledState) = [dummyTx; dummyTx].
Proof.
  split; [reflexivity|].
  apply (sealed_block_tried_every_tx (exampleConfig ProofOfWork) assembledState 0
           assembledFrame assembledState_reachable eq_refl).
  - right. discriminate.
  - reflexivity.
Defined.

Lemma handleNewBlock_at_most_once_witness :
  submitted 0 (effects assembledState) = [exampleBlock] /\
  (length (submitted 0 (effects assembledState)) <= 1)%nat /\
  (removed 0 (effects assembledState) = [] \/
   removed 0 (effects assembledState) = submitted 0 (effects assembledState)).
Proof.
  split; [reflexivity|].
  apply (handleNewBlock_at_most_once (exampleConfig ProofOfWork) assembledState 0).
  exact assembledState_reachable.
Defined.


(** * Properties of the eth protocol *)

Section Wire.
Import EthProtocol.

Lemma valueOf_byteOf z : 0 <= z < 256 -> valueOf (byteOf z) = z.
Proof.
  intros H. unfold valueOf, byteOf.
  destruct (Byte.of_N (Z.to_N z)) as [b|] eqn:E.
  - apply Byte.to_of_N in E. rewrite E. lia.
  - apply Byte.of_N_None_iff in E. lia.
Qed.

Lemma fromBuffer_snoc b x : fromBuffer (b ++ [x]) = fromBuffer b * 256 + valueOf x.
Proof. unfold fromBuffer. rewrite fold_left_app. reflexivity. Qed.

Lemma fromBuffer_bigEndian len n :
  0 <= n < 256 ^ Z.of_nat len -> fromBuffer (bigEndian len n) = n.
Proof.
  revert n; induction len as [|k IH]; intros n H.
  - cbn in *. lia.
  - cbn [bigEndian]. rewrite fromBuffer_snoc.
    rewrite Nat2Z.inj_succ, Z.pow_succ_r in H by lia.
    rewrite IH, valueOf_byteOf.
    + pose proof (Z.div_mod n 256). lia.
    + apply Z.mod_pos_bound. lia.
    + split; [apply Z.div_pos; lia|].
      apply Z.div_lt_upper_bound; lia.
Qed.

Lemma byteLength_bound n :
  0 <= n -> n < 256 ^ Z.max 1 (byteLength n).
Proof.
  intros H. unfold byteLength.
  destruct (Z.eqb_spec n 0) as [->|Hn].
  - reflexivity.
  - rewrite Z.abs_eq by lia.
    assert (0 <= Z.log2 n) by apply Z.log2_nonneg.
    assert (L : n < 2 ^ (Z.log2 n + 1)).
    { replace (Z.log2 n + 1) with (Z.succ (Z.log2 n)) by lia.
      apply Z.log2_spec. lia. }
    pose proof (Z.div_mod (Z.log2 n) 8) as D.
    pose proof (Z.mod_pos_bound (Z.log2 n) 8) as B.
    assert (0 <= Z.log2 n / 8) by (apply Z.div_pos; lia).
    rewrite Z.max_r by lia.
    replace 256 with (2 ^ 8) by reflexivity.
    rewrite <- Z.pow_mul_r by lia.
    eapply Z.lt_le_trans; [exact L|].
    apply Z.pow_le_mono_r; lia.
Qed.

(** A non-negative number is read back from its bytes. *)
Lemma fromBuffer_toArrayLike n : 0 <= n -> fromBuffer (toArrayLike n) = n.
Proof.
  intros H. unfold toArrayLike. rewrite Z.abs_eq by lia.
  apply fromBuffer_bigEndian. split; [lia|].
  rewrite Z2Nat.id by lia. apply byteLength_bound, H.
Qed.

Lemma wireReqId_encode q id :
  0 <= id -> callerReqId q = None ->
  wireReqId (fst (encode q id)) = Some (id + 1) /\ snd (encode q id) = id + 1.
Proof.
  intros H E.
  destruct q as [o|o|o]; cbn in E;
    unfold encode, encodeGetBlockHeaders, encodeGetBlockBodies,
      encodeGetPooledTransactions; rewrite E; cbn [assignReqId fst snd wireReqId];
    rewrite fromBuffer_toArrayLike by lia; auto.
Qed.

(** C5, amended.  The request ids assigned to requests encoded without one
    count up by one from the counter, as unbounded integers: the [k]-th
    request carries [id + 1 + k] on the wire and nothing wraps. *)
Theorem reqIds_count_up (qs : list Request) (id : Z) :
  0 <= id ->
  Forall (fun q => callerReqId q = None) qs ->
  map wireReqId (fst (encodeAll qs id)) =
    map (fun k => Some (id + 1 + Z.of_nat k)) (seq 0 (length qs)) /\
  snd (encodeAll qs id) = id + Z.of_nat (length qs).
Proof.
  intros Hid Hqs. revert id Hid.
  induction Hqs as [|q qs Hq _ IH]; intros id Hid.
  - cbn. split; [reflexivity|lia].
  - cbn [encodeAll].
    destruct (wireReqId_encode q id Hid Hq) as [W1 W2].
    destruct (encode q id) as [t id'] eqn:E. cbn [fst snd] in W1, W2. subst id'.
    destruct (IH (id + 1)) as [I1 I2]; [lia|].
    destruct (encodeAll qs (id + 1)) as [ts id''] eqn:E'. cbn [fst snd] in *.
    split.
    + cbn [map length seq]. rewrite W1, I1. f_equal; [f_equal; lia|].
      rewrite <- seq_shift, map_map. apply map_ext. intros k. f_equal. lia.
    + rewrite I2. cbn [length]. lia.
Qed.

Lemma reqIds_count_up_witness :
  map wireReqId
    (fst (encodeAll
            [ReqGetBlockBodies {| gbb_reqId := None; gbb_hashes := [] |};
             ReqGetPooledTransactions {| gpt_reqId := None; gpt_hashes := [] |}]
            (2 ^ 64 - 2))) =
    [Some (2 ^ 64 - 1); Some (2 ^ 64)] /\
  snd (encodeAll
         [ReqGetBlockBodies {| gbb_reqId := None; gbb_hashes := [] |};
          ReqGetPooledTransactions {| gpt_reqId := None; gpt_hashes := [] |}]
         (2 ^ 64 - 2)) = 2 ^ 64.
Proof.
  apply (reqIds_count_up
    [ReqGetBlockBodies {| gbb_reqId := None; gbb_hashes := [] |};
     ReqGetPooledTransactions {| gpt_reqId := None; gpt_hashes := [] |}]
    (2 ^ 64 - 2)).
  - vm_compute. discriminate.
  - repeat constructor.
Defined.

(** C5 as stated fails: after the request id [2^64 - 1] comes [2^64], where
    [(previous + 1) mod 2^64] is [0]. *)
Lemma reqId_does_not_wrap :
  map wireReqId
    (fst (encodeAll
            [ReqGetBlockHeaders
               {| gbh_reqId := None; gbh_block := ByNumber 1; gbh_max := 1;
                  gbh_skip := None; gbh_reverse := None |};
             ReqGetBlockBodies {| gbb_reqId := None; gbb_hashes := [] |}]
            (2 ^ 64 - 2))) =
    [Some (2 ^ 64 - 1); Some (2 ^ 64)] /\
  (2 ^ 64 - 1 + 1) mod 2 ^ 64 = 0 /\
  2 ^ 64 <> 0.
Proof. vm_compute. repeat split; discriminate. Qed.

(** After [n] requests without a request id the counter is [n]: every
    value is reached. *)
Lemma counter_reaches (n : nat) (q : Request) :
  callerReqId q = None ->
  snd (encodeAll (repeat q n) initialId) = Z.of_nat n.
Proof.
  intros H. unfold initialId.
  assert (G : forall id, 0 <= id ->
              snd (encodeAll (repeat q n) id) = id + Z.of_nat n).
  { induction n as [|n IH]; intros id Hid.
    - cbn. lia.
    - cbn [repeat encodeAll].
      destruct (wireReqId_encode q id Hid H) as [_ W].
      destruct (encode q id) as [t id']. cbn [snd] in W. subst id'.
      specialize (IH (id + 1)).
      destruct (encodeAll (repeat q n) (id + 1)) as [ts id'']. cbn [snd] in *.
      rewrite IH by lia. lia. }
  rewrite G; lia.
Qed.

(** C7, amended.  The advertised versions are exactly version 66. *)
Theorem versions_only_66 : forall v, In v versions <-> v = 66.
Proof.
  intros v. unfold versions. cbn. split.
  - intros [H|[]]. auto.
  - intros ->. auto.
Qed.

(** C7 as stated fails: none of 62, 63, 64, 65 is advertised. *)
Lemma legacy_versions_not_advertised :
  existsb (Z.eqb 62) versions = false /\ existsb (Z.eqb 63) versions = false /\
  existsb (Z.eqb 64) versions = false /\ existsb (Z.eqb 65) versions = false /\
  existsb (Z.eqb 66) versions = true.
Proof. repeat split. Qed.

Lemma fromBuffer_nonneg b : 0 <= fromBuffer b.
Proof.
  unfold fromBuffer.
  assert (G : forall l acc, 0 <= acc ->
              0 <= fold_left (fun a x => a * 256 + valueOf x) l acc).
  { induction l as [|x l IH]; intros acc Ha; cbn; auto.
    apply IH. unfold valueOf. lia. }
  apply G. lia.
Qed.

Lemma bufferToInt_value b z : bufferToInt b = Some z -> z = fromBuffer b.
Proof.
  unfold bufferToInt. destruct (fromBuffer b <? 2 ^ 53); [|discriminate].
  intros [= <-]. reflexivity.
Qed.

Lemma bufferToInt_range b z : bufferToInt b = Some z -> 0 <= z < 2 ^ 53.
Proof.
  unfold bufferToInt. destruct (Z.ltb_spec (fromBuffer b) (2 ^ 53)); [|discriminate].
  intros [= <-]. split; auto. apply fromBuffer_nonneg.
Qed.

(** C8, amended.  The encoder of GetBlockHeaders passes [max] and [skip]
    through as they are ([skip] is 0 when absent), writes the reverse flag
    as 0 or 1, and writes the block as the bytes of the number or as the
    buffer it was given.  The decoder, on whatever the RLP layer delivers,
    throws or reads [max] and [skip] as numbers from 0 up to 2^53 - 1 with
    no other bound, the big-endian value of a byte string and 0 where the
    field is missing; it reads any flag other than 0 as [reverse]; and it
    returns the block as it is when its length is 32, a byte string of 32
    bytes or a list of 32 items, and as [new BN(block)] otherwise.  On a
    message of byte strings that is the big-endian number. *)
Theorem getBlockHeaders_shape :
  (forall (o : GetBlockHeadersOpts) (id : Z),
     exists r b flag,
       fst (encodeGetBlockHeaders o id) =
         Items [Buf r;
                Items [Buf b; Num (gbh_max o);
                       Num (match gbh_skip o with Some k => k | None => 0 end);
                       Num flag]] /\
       (flag = 0 \/ flag = 1) /\
       (flag = 1 <-> gbh_reverse o = Some true) /\
       b = match gbh_block o with
           | ByNumber n => toArrayLike n
           | ByHash h => h
           end) /\
  (forall (arrayToBN : list Rlp -> Z) (arrayToBuffer : list Rlp -> Buffer)
          (t : Rlp) (m : GetBlockHeaders),
     decodeGetBlockHeaders arrayToBN arrayToBuffer t = Some m ->
     exists top body,
       elements (Data t) = Some top /\
       elements (top 1%nat) = Some body /\
       reqId m = newBN arrayToBN (top 0%nat) /\
       max m = fromBuffer (toBuffer arrayToBuffer (body 1%nat)) /\
       0 <= max m < 2 ^ 53 /\
       skip m = fromBuffer (toBuffer arrayToBuffer (body 2%nat)) /\
       0 <= skip m < 2 ^ 53 /\
       (reverse m = false <-> fromBuffer (toBuffer arrayToBuffer (body 3%nat)) = 0) /\
       (body 1%nat = Undefined -> max m = 0) /\
       (body 2%nat = Undefined -> skip m = 0) /\
       (body 3%nat = Undefined -> reverse m = false) /\
       match block m with
       | Same v =>
           v = body 0%nat /\
           ((exists b, v = Data (Str b) /\ length b = 32%nat) \/
            (exists l, v = Data (Arr l) /\ length l = 32%nat))
       | Number n =>
           n = newBN arrayToBN (body 0%nat) /\ hasLength32 (body 0%nat) = Some false
       end) /\
  (forall (arrayToBN : list Rlp -> Z) (arrayToBuffer : list Rlp -> Buffer)
          (r b bm bs brv : Buffer) (rest rest' : list Rlp) (m : GetBlockHeaders),
     decodeGetBlockHeaders arrayToBN arrayToBuffer
       (Arr (Str r :: Arr (Str b :: Str bm :: Str bs :: Str brv :: rest) :: rest')) =
       Some m ->
     reqId m = fromBuffer r /\
     max m = fromBuffer bm /\ 0 <= max m < 2 ^ 53 /\
     skip m = fromBuffer bs /\ 0 <= skip m < 2 ^ 53 /\
     (reverse m = false <-> fromBuffer brv = 0) /\
     block m = (if Nat.eqb (length b) 32 then Same (Data (Str b))
                else Number (fromBuffer b)) /\
     match block m with
     | Same v => v = Data (Str b) /\ length b = 32%nat
     | Number n => 0 <= n
     end).
Proof.
  assert (General : forall (arrayToBN : list Rlp -> Z) (arrayToBuffer : list Rlp -> Buffer)
          (t : Rlp) (m : GetBlockHeaders),
     decodeGetBlockHeaders arrayToBN arrayToBuffer t = Some m ->
     exists top body,
       elements (Data t) = Some top /\
       elements (top 1%nat) = Some body /\
       reqId m = newBN arrayToBN (top 0%nat) /\
       max m = fromBuffer (toBuffer arrayToBuffer (body 1%nat)) /\
       0 <= max m < 2 ^ 53 /\
       skip m = fromBuffer (toBuffer arrayToBuffer (body 2%nat)) /\
       0 <= skip m < 2 ^ 53 /\
       (reverse m = false <-> fromBuffer (toBuffer arrayToBuffer (body 3%nat)) = 0) /\
       block m = match hasLength32 (body 0%nat) with
                 | Some true => Same (body 0%nat)
                 | _ => Number (newBN arrayToBN (body 0%nat))
                 end /\
       hasLength32 (body 0%nat) <> None).
  { intros arrayToBN arrayToBuffer t m. unfold decodeGetBlockHeaders.
    destruct (elements (Data t)) as [top|] eqn:E1; [|discriminate].
    destruct (elements (top 1%nat)) as [body|] eqn:E2; [|discriminate].
    destruct (hasLength32 (body 0%nat)) as [is32|] eqn:E3; [|discriminate].
    destruct (bufferToInt (toBuffer arrayToBuffer (body 1%nat))) as [m'|] eqn:Em;
      [|discriminate].
    destruct (bufferToInt (toBuffer arrayToBuffer (body 2%nat))) as [s'|] eqn:Es;
      [|discriminate].
    destruct (bufferToInt (toBuffer arrayToBuffer (body 3%nat))) as [rv'|] eqn:Er;
      [|discriminate].
    intros [= <-]. cbn [reqId max skip block reverse].
    pose proof (bufferToInt_range _ _ Em) as Rm.
    pose proof (bufferToInt_range _ _ Es) as Rs.
    pose proof (bufferToInt_value _ _ Em) as Vm.
    pose proof (bufferToInt_value _ _ Es) as Vs.
    pose proof (bufferToInt_value _ _ Er) as Vr.
    exists top, body. rewrite E3. repeat split; auto; try lia; try discriminate.
    - destruct (Z.eqb_spec rv' 0); [lia|discriminate].
    - destruct (Z.eqb_spec rv' 0); [reflexivity|lia]. }
  split; [|split].
  - intros o id. unfold encodeGetBlockHeaders.
    destruct (assignReqId (gbh_reqId o) id) as [r id'].
    exists (toArrayLike r). cbn [fst].
    destruct (gbh_block o) as [n|h]; eexists; eexists;
      (split; [reflexivity|]);
      destruct (gbh_reverse o) as [[|]|]; cbn; repeat split;
      auto; try discriminate; try lia; intros [=].
  - intros arrayToBN arrayToBuffer t m H.
    destruct (General _ _ _ _ H)
      as (top & body & E1 & E2 & Hr & Hm & Rm & Hs & Rs & Hv & Hb & Hl).
    exists top, body.
    split; [exact E1|]. split; [exact E2|]. split; [exact Hr|].
    split; [exact Hm|]. split; [exact Rm|]. split; [exact Hs|]. split; [exact Rs|].
    split; [exact Hv|].
    split; [intros U; rewrite Hm, U; reflexivity|].
    split; [intros U; rewrite Hs, U; reflexivity|].
    split; [intros U; apply Hv; rewrite U; reflexivity|].
    rewrite Hb. destruct (body 0%nat) as [|x|[b|l]]; cbn in *.
    + congruence.
    + auto.
    + destruct (Nat.eqb_spec (length b) 32); [|auto].
      split; [reflexivity|]. left. eauto.
    + destruct (Nat.eqb_spec (length l) 32); [|auto].
      split; [reflexivity|]. right. eauto.
  - intros arrayToBN arrayToBuffer r b bm bs brv rest rest' m H.
    destruct (General _ _ _ _ H)
      as (top & body & E1 & E2 & Hr & Hm & Rm & Hs & Rs & Hv & Hb & _).
    cbn in E1. injection E1 as <-. cbn in E2. injection E2 as <-. cbn in *.
    repeat split; auto; try lia; try tauto.
    rewrite Hb. destruct (Nat.eqb_spec (length b) 32); auto.
    apply fromBuffer_nonneg.
Qed.

Lemma getBlockHeaders_shape_witness :
  decodeGetBlockHeaders (fun _ => 0) (fun _ => [])
    (Arr [Str [x01]; Arr [Str [x05]; Str [x04; x00]; Str []; Str [x01]]]) =
    Some {| reqId := 1; block := Number 5; max := 1024; skip := 0; reverse := true |} /\
  max {| reqId := 1; block := Number 5; max := 1024; skip := 0; reverse := true |} =
    fromBuffer [x04; x00] /\
  decodeGetBlockHeaders (fun _ => 0) (fun _ => []) (Arr [Str []; Arr [Str [x07]]]) =
    Some {| reqId := 0; block := Number 7; max := 0; skip := 0; reverse := false |} /\
  max {| reqId := 0; block := Number 7; max := 0; skip := 0; reverse := false |} = 0.
Proof.
  split; [reflexivity|]. split.
  - apply (proj2 (proj2 getBlockHeaders_shape) (fun _ => 0) (fun _ => [])
             [x01] [x05] [x04; x00] [] [x01] [] []).
    reflexivity.
  - split; [reflexivity|].
    destruct (proj1 (proj2 getBlockHeaders_shape) (fun _ => 0) (fun _ => [])
                (Arr [Str []; Arr [Str [x07]]])
                {| reqId := 0; block := Number 7; max := 0; skip := 0; reverse := false |}
                eq_refl)
      as (top & body & E1 & E2 & _ & _ & _ & _ & _ & _ & U & _).
    apply U. cbn in E1. injection E1 as <-. cbn in E2. injection E2 as <-. reflexivity.
Defined.

(** C8 as stated fails: a [max] of 2000 goes through the encoder and through
    the decoder, so does a reverse flag of 2, and a block given as a list
    of 32 items comes back as that list, neither a hash nor a number. *)
Lemma getBlockHeaders_max_unbounded :
  (exists r b,
     fst (encodeGetBlockHeaders
            {| gbh_reqId := None; gbh_block := ByNumber 1; gbh_max := 2000;
               gbh_skip := None; gbh_reverse := None |} 0) =
       Items [Buf r; Items [Buf b; Num 2000; Num 0; Num 0]]) /\
  (exists m,
     decodeGetBlockHeaders (fun _ => 0) (fun _ => [])
       (Arr [Str [x01]; Arr [Str [x01]; Str [x07; xd0]; Str []; Str [x02]]]) =
       Some m /\
     max m = 2000 /\ 1024 < max m /\ reverse m = true) /\
  (exists m,
     decodeGetBlockHeaders (fun _ => 0) (fun _ => [])
       (Arr [Str [x01]; Arr [Arr (repeat (Str []) 32); Str [x01]]]) = Some m /\
     block m = Same (Data (Arr (repeat (Str []) 32)))).
Proof.
  split; [|split].
  - eexists. eexists. reflexivity.
  - eexists. split; [reflexivity|]. vm_compute. repeat split.
  - eexists. split; reflexivity.
Qed.
End Wire.

(** ** The other messages *)

Section Messages.
Import EthProtocol.

Lemma length_bigEndian len n : length (bigEndian len n) = len.
Proof.
  revert n; induction len as [|k IH]; intros n; cbn; auto.
  rewrite length_app, IH. cbn. lia.
Qed.

Lemma byteLength_32 n :
  0 <= n -> (length (toArrayLike n) = 32%nat <-> 2 ^ 248 <= n < 2 ^ 256).
Proof.
  intros H. unfold toArrayLike. rewrite length_bigEndian. unfold byteLength.
  destruct (Z.eqb_spec n 0) as [->|Hn].
  - cbn. split; [discriminate|lia].
  - rewrite Z.abs_eq by lia.
    assert (L0 : 0 <= Z.log2 n) by apply Z.log2_nonneg.
    assert (D0 : 0 <= Z.log2 n / 8) by (apply Z.div_pos; lia).
    rewrite Z.max_r by lia.
    assert (A : 2 ^ 248 <= n <-> 248 <= Z.log2 n) by (apply Z.log2_le_pow2; lia).
    assert (B : n < 2 ^ 256 <-> Z.log2 n < 256) by (apply Z.log2_lt_pow2; lia).
    pose proof (Z.div_mod (Z.log2 n) 8) as D.
    pose proof (Z.mod_pos_bound (Z.log2 n) 8) as M.
    split.
    + intros E. assert (Z.log2 n / 8 + 1 = 32) by lia. lia.
    + intros [E1 E2]. assert (Z.log2 n / 8 + 1 = 32) by lia. lia.
Qed.

(** A number arrives with its value. *)
Lemma fromBuffer_number n :
  0 <= n -> fromBuffer (if n =? 0 then [] else toArrayLike n) = n.
Proof.
  intros H. destruct (Z.eqb_spec n 0) as [->|_]; [reflexivity|].
  apply fromBuffer_toArrayLike, H.
Qed.

Lemma bufferToInt_number n :
  0 <= n < 2 ^ 53 -> bufferToInt (if n =? 0 then [] else toArrayLike n) = Some n.
Proof.
  intros H. unfold bufferToInt. rewrite fromBuffer_number by lia.
  destruct (Z.ltb_spec n (2 ^ 53)); [reflexivity|lia].
Qed.

Lemma rlp_Num n :
  0 <= n -> rlp (Num n) = Some (Str (if n =? 0 then [] else toArrayLike n)).
Proof. intros H. cbn. destruct (Z.ltb_spec n 0); [lia|reflexivity]. Qed.

(** Byte strings arrive as they were sent. *)
Lemma rlp_hashes l : rlp (Items (map Buf l)) = Some (Arr (map Str l)).
Proof.
  cbn. induction l as [|h l IH]; [reflexivity|].
  cbn in *. destruct ((fix each (l : list Item) : option (list Rlp) := _) (map Buf l));
    [|discriminate].
  injection IH as <-. reflexivity.
Qed.

Lemma rlp_pair x y x' y' :
  rlp x = Some x' -> rlp y = Some y' -> rlp (Items [x; y]) = Some (Arr [x'; y']).
Proof. intros Hx Hy. cbn. rewrite Hx, Hy. reflexivity. Qed.

Lemma rlp_getBlockHeaders o id :
  0 <= gbh_max o ->
  0 <= match gbh_skip o with Some k => k | None => 0 end ->
  rlp (fst (encodeGetBlockHeaders o id)) =
    Some (Arr [Str (toArrayLike (fst (assignReqId (gbh_reqId o) id)));
               Arr [Str match gbh_block o with
                        | ByNumber n => toArrayLike n
                        | ByHash h => h
                        end;
                    Str (if gbh_max o =? 0 then [] else toArrayLike (gbh_max o));
                    Str (let k := match gbh_skip o with Some k => k | None => 0 end in
                         if k =? 0 then [] else toArrayLike k);
                    Str (match gbh_reverse o with
                         | Some true => [x01]
                         | _ => []
                         end)]]).
Proof.
  intros Hm Hs. unfold encodeGetBlockHeaders.
  destruct (assignReqId (gbh_reqId o) id) as [q id']. cbn [fst].
  apply rlp_pair; [reflexivity|].
  cbn -[toArrayLike].
  destruct (Z.ltb_spec (gbh_max o) 0); [lia|].
  destruct (Z.ltb_spec (match gbh_skip o with Some k => k | None => 0 end) 0); [lia|].
  destruct (gbh_block o), (gbh_reverse o) as [[|]|]; reflexivity.
Qed.

(** X11.  A GetBlockHeaders request that goes through the encoder, the RLP
    layer and the decoder comes out with the request id it was sent with,
    its block, its [max], its [skip] (0 when absent) and its [reverse]
    ([false] when absent), provided the request id is not negative, [max]
    and [skip] are from 0 up to 2^53 - 1, and the block is a hash of 32
    bytes or a number, not negative, that is not written on 32 bytes. *)
Theorem getBlockHeaders_round_trip
    (arrayToBN : list Rlp -> Z) (arrayToBuffer : list Rlp -> Buffer)
    (o : GetBlockHeadersOpts) (id : Z) :
  0 <= fst (assignReqId (gbh_reqId o) id) ->
  0 <= gbh_max o < 2 ^ 53 ->
  0 <= match gbh_skip o with Some k => k | None => 0 end < 2 ^ 53 ->
  match gbh_block o with
  | ByNumber n => 0 <= n /\ ~ (2 ^ 248 <= n < 2 ^ 256)
  | ByHash h => length h = 32%nat
  end ->
  exists t,
    rlp (fst (encodeGetBlockHeaders o id)) = Some t /\
    decodeGetBlockHeaders arrayToBN arrayToBuffer t =
      Some {| reqId := fst (assignReqId (gbh_reqId o) id);
              block := match gbh_block o with
                       | ByNumber n => Number n
                       | ByHash h => Same (Data (Str h))
                       end;
              max := gbh_max o;
              skip := match gbh_skip o with Some k => k | None => 0 end;
              reverse := match gbh_reverse o with Some v => v | None => false end |}.
Proof.
  intros Hq Hm Hs Hb. eexists. split; [apply rlp_getBlockHeaders; lia|].
  unfold decodeGetBlockHeaders. cbn [elements nth_error toBuffer newBN]. cbv zeta.
  rewrite !bufferToInt_number by lia.
  assert (F : forall v : option bool,
            bufferToInt (match v with Some true => [x01] | _ => [] end) =
              Some (match v with Some true => 1 | _ => 0 end))
    by (intros [[|]|]; reflexivity).
  rewrite F.
  destruct (gbh_block o) as [n|h]; cbn [hasLength32 newBN].
  - destruct Hb as [Hn Hlen].
    destruct (Nat.eqb_spec (length (toArrayLike n)) 32) as [E|E].
    + apply byteLength_32 in E; tauto.
    + rewrite !fromBuffer_toArrayLike by lia.
      destruct (gbh_reverse o) as [[|]|]; reflexivity.
  - rewrite Hb. cbn. rewrite fromBuffer_toArrayLike by lia.
    destruct (gbh_reverse o) as [[|]|]; reflexivity.
Qed.

(** X12.  The decoder of GetBlockHeaders tells a hash from a number by the
    length alone: a request for a block number from 2^248 up to 2^256 - 1
    is decoded as a request for the hash that has its bytes, and a request
    for a hash that has not 32 bytes as a request for a number. *)
Theorem block_selector_by_length
    (arrayToBN : list Rlp -> Z) (arrayToBuffer : list Rlp -> Buffer)
    (o : GetBlockHeadersOpts) (id : Z) (t : Rlp) (d : GetBlockHeaders) :
  rlp (fst (encodeGetBlockHeaders o id)) = Some t ->
  decodeGetBlockHeaders arrayToBN arrayToBuffer t = Some d ->
  match gbh_block o with
  | ByNumber n =>
      2 ^ 248 <= n < 2 ^ 256 -> block d = Same (Data (Str (toArrayLike n)))
  | ByHash h =>
      length h <> 32%nat -> block d = Number (fromBuffer h)
  end.
Proof.
  intros Ht. 
  assert (Hm : 0 <= gbh_max o /\ 0 <= match gbh_skip o with Some k => k | None => 0 end).
  { revert Ht. unfold encodeGetBlockHeaders.
    destruct (assignReqId (gbh_reqId o) id) as [q id']. cbn -[toArrayLike].
    destruct (Z.ltb_spec (gbh_max o) 0);
      [destruct (gbh_block o); discriminate|].
    destruct (Z.ltb_spec (match gbh_skip o with Some k => k | None => 0 end) 0);
      [destruct (gbh_block o); discriminate|].
    lia. }
  rewrite rlp_getBlockHeaders in Ht by lia. injection Ht as <-.
  unfold decodeGetBlockHeaders. cbn [elements nth_error toBuffer newBN].
  destruct (gbh_block o) as [n|h]; cbn [hasLength32 newBN];
    (destruct (bufferToInt _); [|intros [=]]);
    (destruct (bufferToInt _); [|intros [=]]);
    (destruct (bufferToInt _); [|intros [=]]);
    intros [= E]; subst d; cbn [block].
  - intros Hn. apply byteLength_32 in Hn; [|lia]. rewrite Hn. reflexivity.
  - intros Hh. apply Nat.eqb_neq in Hh. rewrite Hh. reflexivity.
Qed.

(** X13.  GetBlockBodies, GetPooledTransactions and BlockBodies, through
    the encoder, the RLP layer and the decoder: the request id comes out as
    it was sent, when it is not negative, with the hashes or the bodies as
    they were delivered. *)
Theorem reqId_messages_round_trip (arrayToBN : list Rlp -> Z) :
  (forall (o : GetBlockBodiesOpts) (id : Z),
     0 <= fst (assignReqId (gbb_reqId o) id) ->
     exists t,
       rlp (fst (encodeGetBlockBodies o id)) = Some t /\
       decodeGetBlockBodies arrayToBN t =
         (fst (assignReqId (gbb_reqId o) id), Data (Arr (map Str (gbb_hashes o))))) /\
  (forall (o : GetPooledTransactionsOpts) (id : Z),
     0 <= fst (assignReqId (gpt_reqId o) id) ->
     exists t,
       rlp (fst (encodeGetPooledTransactions o id)) = Some t /\
       decodeGetPooledTransactions arrayToBN t =
         (fst (assignReqId (gpt_reqId o) id), Data (Arr (map Str (gpt_hashes o))))) /\
  (forall (reqId : Z) (bodies : Item) (delivered : Rlp),
     0 <= reqId ->
     rlp bodies = Some delivered ->
     exists t,
       rlp (encodeBlockBodies reqId bodies) = Some t /\
       decodeBlockBodies arrayToBN t = (reqId, Data delivered)).
Proof.
  split; [|split].
  - intros o id H. unfold encodeGetBlockBodies.
    destruct (assignReqId _ id) as [q id']; cbn [fst] in *.
    eexists. split; [apply rlp_pair; [reflexivity|apply rlp_hashes]|].
    unfold decodeGetBlockBodies. cbn [element nth_error newBN].
    rewrite fromBuffer_toArrayLike by lia. reflexivity.
  - intros o id H. unfold encodeGetPooledTransactions.
    destruct (assignReqId _ id) as [q id']; cbn [fst] in *.
    eexists. split; [apply rlp_pair; [reflexivity|apply rlp_hashes]|].
    unfold decodeGetPooledTransactions. cbn [element nth_error newBN].
    rewrite fromBuffer_toArrayLike by lia. reflexivity.
  - intros q bodies delivered H Hb. unfold encodeBlockBodies.
    eexists. split; [apply rlp_pair; [reflexivity|exact Hb]|].
    unfold decodeBlockBodies. cbn [element nth_error newBN].
    rewrite fromBuffer_toArrayLike by lia. reflexivity.
Qed.

(** X14.  The decoder of GetPooledTransactions accepts a request id of any
    size.  The encoder of PooledTransactions throws exactly when the
    request id is 2^53 or more and writes it as a number otherwise, where
    BlockBodies carries every request id back. *)
Theorem pooledTransactions_reqId_limit (arrayToBN : list Rlp -> Z)
    (r : Buffer) (rest : list Rlp) (txs : list TypedTransaction) :
  let q := fst (decodeGetPooledTransactions arrayToBN (Arr (Str r :: rest))) in
  q = fromBuffer r /\
  (encodePooledTransactions q txs = None <-> 2 ^ 53 <= q) /\
  (q < 2 ^ 53 ->
   encodePooledTransactions q txs = Some (Items [Num q; Items (serializeTxs txs)])) /\
  (exists t,
     rlp (encodeBlockBodies q (Items [])) = Some t /\
     fst (decodeBlockBodies arrayToBN t) = q).
Proof.
  cbn [decodeGetPooledTransactions element nth_error newBN fst].
  pose proof (fromBuffer_nonneg r) as H.
  split; [reflexivity|].
  assert (B : exists t,
            rlp (encodeBlockBodies (fromBuffer r) (Items [])) = Some t /\
            fst (decodeBlockBodies arrayToBN t) = fromBuffer r).
  { eexists. split; [apply rlp_pair; reflexivity|].
    unfold decodeBlockBodies. cbn [element nth_error newBN fst].
    apply fromBuffer_toArrayLike, H. }
  unfold encodePooledTransactions, toNumber. rewrite Z.abs_eq by exact H.
  destruct (Z.ltb_spec (fromBuffer r) (2 ^ 53)) as [L|L].
  - split; [split; [discriminate|lia]|]. split; [reflexivity|exact B].
  - split; [split; [lia|reflexivity]|]. split; [lia|exact B].
Qed.

Lemma encodeAll_app qs1 qs2 id :
  encodeAll (qs1 ++ qs2) id =
  (fst (encodeAll qs1 id) ++ fst (encodeAll qs2 (snd (encodeAll qs1 id))),
   snd (encodeAll qs2 (snd (encodeAll qs1 id)))).
Proof.
  revert id; induction qs1 as [|q qs1 IH]; intros id; cbn [app encodeAll].
  - cbn. destruct (encodeAll qs2 id); reflexivity.
  - destruct (encode q id) as [t id']. rewrite IH.
    destruct (encodeAll qs1 id') as [ts id'']. cbn. reflexivity.
Qed.

Lemma length_encodeAll qs id : length (fst (encodeAll qs id)) = length qs.
Proof.
  revert id. induction qs as [|x qs IH]; intros id; cbn [encodeAll]; auto.
  destruct (encode x id) as [t id']. specialize (IH id').
  destruct (encodeAll qs id'). cbn in *. lia.
Qed.

Lemma encode_counter q id :
  snd (encode q id) = snd (assignReqId (callerReqId q) id) /\
  (0 <= sentReqId q id -> wireReqId (fst (encode q id)) = Some (sentReqId q id)).
Proof.
  unfold sentReqId.
  destruct q as [o|o|o]; cbn [encode callerReqId];
    unfold encodeGetBlockHeaders, encodeGetBlockBodies, encodeGetPooledTransactions;
    destruct (assignReqId _ id) as [r id']; cbn [fst snd wireReqId];
    (split; [reflexivity|]); intros H; rewrite fromBuffer_toArrayLike by lia; reflexivity.
Qed.

Lemma encodeAll_counter qs id :
  snd (encodeAll qs id) = id + Z.of_nat (unnumbered qs).
Proof.
  revert id; induction qs as [|q qs IH]; intros id; cbn [encodeAll].
  - unfold unnumbered. cbn. lia.
  - destruct (encode_counter q id) as [C _].
    destruct (encode q id) as [t id']. cbn [snd] in C. subst id'.
    specialize (IH (snd (assignReqId (callerReqId q) id))).
    destruct (encodeAll qs _) as [ts id'']. cbn [snd] in *. rewrite IH.
    unfold unnumbered. cbn [filter].
    destruct (callerReqId q); cbn [assignReqId snd length]; lia.
Qed.

(** X15.  Requests encoded one after the other, some with a request id of
    their own: a request given one is sent with it and leaves the counter
    alone; a request given none is sent with the counter plus one, the
    counter being the initial one plus the number of earlier requests that
    were given none. *)
Theorem reqIds_of_mixed_requests (qs : list Request) (id : Z) (k : nat) (q : Request) :
  nth_error qs k = Some q ->
  let counter := id + Z.of_nat (unnumbered (firstn k qs)) in
  0 <= sentReqId q counter ->
  nth_error (map wireReqId (fst (encodeAll qs id))) k = Some (Some (sentReqId q counter)) /\
  sentReqId q counter =
    match callerReqId q with
    | Some r => r
    | None => counter + 1
    end /\
  snd (encodeAll qs id) = id + Z.of_nat (unnumbered qs).
Proof.
  intros Hk counter Hs.
  split; [|split].
  - apply nth_error_split in Hk as (l1 & l2 & -> & Hlen).
    subst k. unfold counter in *.
    rewrite firstn_app, Nat.sub_diag, firstn_all, firstn_O, app_nil_r in *.
    rewrite encodeAll_app. cbn [fst].
    rewrite map_app, nth_error_app2; rewrite length_map, length_encodeAll; [|lia].
    rewrite Nat.sub_diag. rewrite encodeAll_counter.
    cbn [encodeAll].
    destruct (encode_counter q (id + Z.of_nat (unnumbered l1))) as [_ W].
    destruct (encode q _) as [t id']. destruct (encodeAll l2 id'). cbn [fst map nth_error].
    cbn [fst] in W. rewrite W by exact Hs. reflexivity.
  - unfold sentReqId. destruct (callerReqId q); reflexivity.
  - apply encodeAll_counter.
Qed.

Lemma getBlockHeaders_round_trip_witness :
  exists t,
    rlp (fst (encodeGetBlockHeaders
                {| gbh_reqId := None; gbh_block := ByNumber 256; gbh_max := 1024;
                   gbh_skip := None; gbh_reverse := Some true |} 0)) = Some t /\
    decodeGetBlockHeaders (fun _ => 0) (fun _ => []) t =
      Some {| reqId := 1; block := Number 256; max := 1024; skip := 0; reverse := true |}.
Proof.
  apply (getBlockHeaders_round_trip (fun _ => 0) (fun _ => [])
           {| gbh_reqId := None; gbh_block := ByNumber 256; gbh_max := 1024;
              gbh_skip := None; gbh_reverse := Some true |} 0);
    cbn; lia.
Defined.

Lemma block_selector_by_length_witness :
  exists t d,
    rlp (fst (encodeGetBlockHeaders
                {| gbh_reqId := None; gbh_block := ByNumber (2 ^ 255); gbh_max := 1;
                   gbh_skip := None; gbh_reverse := None |} 0)) = Some t /\
    decodeGetBlockHeaders (fun _ => 0) (fun _ => []) t = Some d /\
    block d = Same (Data (Str (toArrayLike (2 ^ 255)))) /\
    length (toArrayLike (2 ^ 255)) = 32%nat.
Proof.
  eexists. eexists. split; [vm_compute; reflexivity|].
  split; [vm_compute; reflexivity|]. split; [|vm_compute; reflexivity].
  refine (block_selector_by_length (fun _ => 0) (fun _ => [])
           {| gbh_reqId := None; gbh_block := ByNumber (2 ^ 255); gbh_max := 1;
              gbh_skip := None; gbh_reverse := None |} 0 _ _ _ _ _).
  - vm_compute. reflexivity.
  - vm_compute. reflexivity.
  - lia.
Defined.

Lemma reqId_messages_round_trip_witness :
  exists t,
    rlp (fst (encodeGetBlockBodies
                {| gbb_reqId := None; gbb_hashes := [[x01]; [x02]] |} 41)) = Some t /\
    decodeGetBlockBodies (fun _ => 0) t = (42, Data (Arr [Str [x01]; Str [x02]])).
Proof.
  apply (proj1 (reqId_messages_round_trip (fun _ => 0))
           {| gbb_reqId := None; gbb_hashes := [[x01]; [x02]] |} 41).
  cbn. lia.
Defined.

Lemma reqIds_of_mixed_requests_witness :
  let qs := [ReqGetBlockBodies {| gbb_reqId := None; gbb_hashes := [] |};
             ReqGetBlockBodies {| gbb_reqId := Some 7; gbb_hashes := [] |};
             ReqGetPooledTransactions {| gpt_reqId := None; gpt_hashes := [] |}] in
  nth_error (map wireReqId (fst (encodeAll qs 0))) 2 = Some (Some 2) /\
  snd (encodeAll qs 0) = 2.
Proof.
  intros qs.
  destruct (reqIds_of_mixed_requests qs 0 2
              (ReqGetPooledTransactions {| gpt_reqId := None; gpt_hashes := [] |}) eq_refl)
    as (H1 & _ & H3).
  - vm_compute. discriminate.
  - split; [exact H1|exact H3].
Defined.

End Messages.
